(** * StatusWorkload: the status-document conformance probe

  A shallow embedding of [fdbserver/workloads/StatusWorkload.actor.cpp]:
  the coverage-requirement generator [schemaCoverageRequirements], the
  probe loop [fetcher], and the workload entry points [start], [check]
  and [getMetrics], together with the schema matcher the loop calls. *)

From Stdlib Require Import ZArith QArith.
From stdpp Require Import base strings gmap list.

Local Open Scope Z_scope.

(** ** JSON values (json_spirit) *)

Module Json.

(** [json_spirit::Value_type], in the order of the enumeration. *)
Inductive Value_type :=
| obj_type | array_type | str_type | bool_type | int_type | real_type
| null_type.

#[global] Instance Value_type_eq_dec : EqDecision Value_type.
Proof. solve_decision. Defined.

(** [json_spirit::mValue].  An [mObject] is a [std::map] from strings to
    values: it is kept as the list of its entries in iteration order.
    The payload of a real is never looked at; it is kept as a rational. *)
#[local] Unset Elimination Schemes.
Inductive mValue :=
| Obj (o : list (string * mValue))
| Array (a : list mValue)
| Str (s : string)
| Bool (b : bool)
| Int (i : Z)
| Real (r : Q)
| Null.
#[local] Set Elimination Schemes.

Abbreviation mObject := (list (string * mValue)).
Abbreviation mArray := (list mValue).

Definition type (v : mValue) : Value_type :=
  match v with
  | Obj _ => obj_type
  | Array _ => array_type
  | Str _ => str_type
  | Bool _ => bool_type
  | Int _ => int_type
  | Real _ => real_type
  | Null => null_type
  end.

(** [std::map::find]: the value stored under [key], if any. *)
Fixpoint find (key : string) (o : mObject) : option mValue :=
  match o with
  | [] => None
  | (k, v) :: rest => if String.eqb k key then Some v else find key rest
  end.

(** [std::map::count]. *)
Definition count (key : string) (o : mObject) : bool :=
  match find key o with Some _ => true | None => false end.

Definition keys (o : mObject) : list string := o.*1.

(** Induction over values that reaches inside arrays and objects. *)
Section Induction.
Variable P : mValue -> Prop.
Hypothesis HObj : forall o, Forall (fun kv => P kv.2) o -> P (Obj o).
Hypothesis HArray : forall a, Forall P a -> P (Array a).
Hypothesis HStr : forall s, P (Str s).
Hypothesis HBool : forall b, P (Bool b).
Hypothesis HInt : forall i, P (Int i).
Hypothesis HReal : forall r, P (Real r).
Hypothesis HNull : P Null.

Fixpoint mValue_deep_ind (v : mValue) : P v :=
  match v with
  | Obj o =>
      HObj o
        ((fix entries (o : mObject) : Forall (fun kv => P kv.2) o :=
            match o with
            | [] => Forall_nil_2 _
            | kv :: rest =>
                Forall_cons_2 _ kv rest (mValue_deep_ind kv.2) (entries rest)
            end) o)
  | Array a =>
      HArray a
        ((fix items (a : mArray) : Forall P a :=
            match a with
            | [] => Forall_nil_2 _
            | x :: rest => Forall_cons_2 _ x rest (mValue_deep_ind x) (items rest)
            end) a)
  | Str s => HStr s
  | Bool b => HBool b
  | Int i => HInt i
  | Real r => HReal r
  | Null => HNull
  end.
End Induction.

End Json.

Import Json.

(** ** Flow errors, trace events and the coverage registry *)

(** [flow/Error.h]: an error is identified by its code.  The two codes
    the workload names come from flow's error table. *)
Record Error := { code : Z }.

#[global] Instance Error_eq_dec : EqDecision Error.
Proof. solve_decision. Defined.

Definition error_code_actor_cancelled : Z := 1101.
Definition error_code_unknown_error : Z := 4000.
Definition actor_cancelled : Error := {| code := error_code_actor_cancelled |}.
Definition unknown_error : Error := {| code := error_code_unknown_error |}.

(** What a C++ [throw] can carry here: a [std::exception] with its
    [what()] text (json_spirit raises [std::runtime_error]), or a flow
    [Error], which is not a [std::exception]. *)
Inductive Exception :=
| std_exception (what : string)
| flow_error (e : Error).

Inductive Severity := SevInfo | SevError.

Inductive Detail :=
| DString (s : string)
| DInt (i : Z)
| DDouble (d : Q).

(** One [TraceEvent]: severity, type name, the [.detail] pairs in the
    order they were attached, and the error given to [.error], if any. *)
Record TraceEvent := {
  severity : Severity;
  eventType : string;
  details : list (string * Detail);
  eventError : option Error
}.

(** The process-wide state the workload writes to: the two sets behind
    [schemaCoverage] and the trace log. *)
Record World := {
  requiredPaths : gset string;
  coveredPaths : gset string;
  traceLog : list TraceEvent
}.

Definition emptyWorld : World :=
  {| requiredPaths := ∅; coveredPaths := ∅; traceLog := [] |}.

Definition trace (ev : TraceEvent) (w : World) : World :=
  {| requiredPaths := requiredPaths w;
     coveredPaths := coveredPaths w;
     traceLog := traceLog w ++ [ev] |}.

(** Modelled from the spec: [schemaCoverage] is declared outside this
    file.  The spec gives its contract (CoverageRegistry): [require] and
    [hit] are idempotent inserts into the required and the observed set;
    the flag [covered] selects the set. *)
Definition schemaCoverage (spath : string) (covered : bool) (w : World) : World :=
  if covered
  then {| requiredPaths := requiredPaths w;
          coveredPaths := {[ spath ]} ∪ coveredPaths w;
          traceLog := traceLog w |}
  else {| requiredPaths := {[ spath ]} ∪ requiredPaths w;
          coveredPaths := coveredPaths w;
          traceLog := traceLog w |}.

(** A computation that may throw: its result and the state it leaves
    (effects made before a throw stay). *)
Definition Throwing (A : Type) : Type := World -> (Exception + A) * World.

(** A range-based [for]: the body runs on each element in order and the
    first throw leaves the loop. *)
Definition for_each {A : Type} (body : A -> Throwing unit) : list A -> Throwing unit :=
  fix go (l : list A) (w : World) : (Exception + unit) * World :=
    match l with
    | [] => (inr tt, w)
    | x :: rest =>
        match body x w with
        | (inr _, w') => go rest w'
        | (inl e, w') => (inl e, w')
        end
    end.

(** ** The coverage-requirement generator *)

Abbreviation StatusObject := (list (string * mValue)).

Section Coverage.

(** The text json_spirit puts in the [std::runtime_error] it throws when
    a value of one type is read as another ([check_type]); it is built
    outside this file and only ever reaches the trace log. *)
Variable check_type_what : Value_type -> Value_type -> string.

Definition check_type (v : mValue) (vtype : Value_type) : Exception :=
  std_exception (check_type_what (type v) vtype).

Definition get_obj (v : mValue) : Exception + mObject :=
  match v with Obj o => inr o | _ => inl (check_type v obj_type) end.

Definition get_array (v : mValue) : Exception + mArray :=
  match v with Array a => inr a | _ => inl (check_type v array_type) end.

Definition get_str (v : mValue) : Exception + string :=
  match v with Str s => inr s | _ => inl (check_type v str_type) end.

(** [TraceEvent(SevError, "SchemaCoverageRequirementsException")] with
    the given details. *)
Definition SchemaCoverageRequirementsException (ds : list (string * Detail))
    : TraceEvent :=
  {| severity := SevError;
     eventType := "SchemaCoverageRequirementsException";
     details := ds;
     eventError := None |}.

(** The two handlers that close the [try] of
    [schemaCoverageRequirements]: a [std::exception] is logged with its
    text, anything else without, and both throw [unknown_error()]. *)
Definition coverage_handlers (body : Throwing unit) : Throwing unit :=
  fun w =>
    match body w with
    | (inr u, w') => (inr u, w')
    | (inl (std_exception what), w') =>
        (inl (flow_error unknown_error),
         trace (SchemaCoverageRequirementsException [("What", DString what)]) w')
    | (inl (flow_error _), w') =>
        (inl (flow_error unknown_error),
         trace (SchemaCoverageRequirementsException []) w')
    end.

(** The inner loop over the items of a [$enum] array. *)
Definition coverage_enum_item (spath : string) (enum_item : mValue) : Throwing unit :=
  fun w =>
    match get_str enum_item with
    | inl e => (inl e, w)
    | inr s => (inr tt, schemaCoverage (spath +:+ ".$enum." +:+ s) false w)
    end.

(** The body of the loop over the entries [skv] of the schema.  [recur v
    p] stands for the call [schemaCoverageRequirements(v.get_obj(), p)]. *)
Definition coverage_entry (recur : mValue -> string -> Throwing unit)
    (schema_path : string) (skv : string * mValue) : Throwing unit :=
  fun w =>
    let '(key, sv) := skv in
    let spath := schema_path +:+ "." +:+ key in
    let w := schemaCoverage spath false w in
    match sv with
    | Array (first :: _) => recur first (spath +:+ "[0]") w
    | Obj so =>
        match find "$enum" so with
        | Some payload =>
            match get_array payload with
            | inl e => (inl e, w)
            | inr items => for_each (coverage_enum_item spath) items w
            end
        | None => recur sv spath w
        end
    | _ => (inr tt, w)
    end.

(** [schemaCoverageRequirements(schema.get_obj(), schema_path)]: the read
    of [schema] as an object happens at the call, outside the callee's
    [try]. *)
Fixpoint schemaCoverageRequirements_of (schema : mValue) (schema_path : string)
    {struct schema} : Throwing unit :=
  match schema with
  | Obj o =>
      coverage_handlers
        (for_each (coverage_entry schemaCoverageRequirements_of schema_path) o)
  | _ => fun w => (inl (check_type schema obj_type), w)
  end.

Definition schemaCoverageRequirements (schema : StatusObject) (schema_path : string)
    : Throwing unit :=
  schemaCoverageRequirements_of (Obj schema) schema_path.

End Coverage.

(** *** The schema shapes the generator cannot read *)

(** An entry value is unreadable when the traversal takes a non-object as
    an array template, a non-array as a [$enum] payload or a non-string
    as a [$enum] item, at that entry or below it.  An array without
    elements and an entry without [$enum] that is no object or array are
    never unreadable. *)
Inductive unreadable_entry : mValue -> Prop :=
| unreadable_template first rest :
    type first <> obj_type -> unreadable_entry (Array (first :: rest))
| unreadable_below_template o rest :
    unreadable_object o -> unreadable_entry (Array (Obj o :: rest))
| unreadable_enum_payload so payload :
    find "$enum" so = Some payload -> type payload <> array_type ->
    unreadable_entry (Obj so)
| unreadable_enum_item so items item :
    find "$enum" so = Some (Array items) -> item ∈ items ->
    type item <> str_type -> unreadable_entry (Obj so)
| unreadable_below_object so :
    find "$enum" so = None -> unreadable_object so -> unreadable_entry (Obj so)
with unreadable_object : mObject -> Prop :=
| unreadable_at o key sv :
    (key, sv) ∈ o -> unreadable_entry sv -> unreadable_object o.

(** A computation's result is a throw. *)
Definition throws {A : Type} (r : (Exception + A) * World) : Prop :=
  exists e, r.1 = inl e.

(** What the generator does with an entry value, and with an object,
    according to whether it is unreadable. *)
Definition entry_spec (what : Value_type -> Value_type -> string) (sv : mValue) : Prop :=
  (unreadable_entry sv /\
   forall schema_path key w,
     throws (coverage_entry what (schemaCoverageRequirements_of what) schema_path (key, sv) w))
  \/
  (~ unreadable_entry sv /\
   forall schema_path key w,
     (coverage_entry what (schemaCoverageRequirements_of what) schema_path (key, sv) w).1
     = inr tt).

Definition object_spec (what : Value_type -> Value_type -> string) (o : mObject) : Prop :=
  (unreadable_object o /\
   forall schema_path w,
     (schemaCoverageRequirements what o schema_path w).1 = inl (flow_error unknown_error))
  \/
  (~ unreadable_object o /\
   forall schema_path w, (schemaCoverageRequirements what o schema_path w).1 = inr tt).

(** What a run adds to the trace log: nothing when it returns, and when
    it throws [e] the events [mid] with [Q e mid]. *)
Definition log_step (Q : Exception -> list TraceEvent -> Prop) (w : World)
    (res : (Exception + unit) * World) : Prop :=
  exists mid,
    traceLog res.2 = traceLog w ++ mid /\
    match res.1 with inr _ => mid = [] | inl e => Q e mid end.

(** Some event of [mid] records the text of a json_spirit exception. *)
Definition logged_detail (what : Value_type -> Value_type -> string)
    (mid : list TraceEvent) : Prop :=
  exists actual expected,
    SchemaCoverageRequirementsException
      [("What", DString (what actual expected))] ∈ mid.

(** A throw inside the [try]: a json_spirit exception not yet logged, or
    the [unknown_error] of a nested call, whose cause is in the log. *)
Definition thrown_inside (what : Value_type -> Value_type -> string)
    (e : Exception) (mid : list TraceEvent) : Prop :=
  ((exists actual expected, e = std_exception (what actual expected)) /\ mid = [])
  \/ (e = flow_error unknown_error /\ logged_detail what mid).

(** A throw that leaves [schemaCoverageRequirements]. *)
Definition thrown_outside (what : Value_type -> Value_type -> string)
    (e : Exception) (mid : list TraceEvent) : Prop :=
  e = flow_error unknown_error /\ logged_detail what mid.

(** The paths an enum directive at [spath] asks for, one per value. *)
Definition enum_paths (spath : string) (values : list string) : list string :=
  (fun v => spath +:+ ".$enum." +:+ v) <$> values.

(** The calls [schemaCoverage(p, false)] for the paths [p] of [paths], in
    order. *)
Definition register_required (paths : list string) (w : World) : World :=
  foldl (fun w p => schemaCoverage p false w) w paths.

(** *** Concrete inputs *)

(** json_spirit's message, with the types printed as their enumeration
    values. *)
Definition type_number (t : Value_type) : string :=
  match t with
  | obj_type => "0" | array_type => "1" | str_type => "2" | bool_type => "3"
  | int_type => "4" | real_type => "5" | null_type => "6"
  end.

Definition json_spirit_what (actual expected : Value_type) : string :=
  "value type is " +:+ type_number actual +:+ " not " +:+ type_number expected.

(** The schema of the unit test [/fdbserver/status/schema/basic]. *)
Definition basic_schema : StatusObject :=
  [("apple", Int 3);
   ("arr", Array [Obj [("a", Int 1); ("b", Int 2)]]);
   ("banana", Str "foo");
   ("en", Obj [("$enum", Array [Str "foo"; Str "bar"])]);
   ("mapped", Obj [("$map", Obj [("x", Bool true)])]);
   ("sub", Obj [("thing", Bool true)])].

Definition enum_only_schema : StatusObject :=
  [("en", Obj [("$enum", Array [Str "foo"; Str "bar"])])].

Definition empty_array_schema : StatusObject := [("arr", Array [])].

Definition bad_template_schema : StatusObject := [("arr", Array [Int 3])].

(** ** The workload *)

(** *** Counters and metrics *)

Definition INT64_MIN : Z := - 2 ^ 63.
Definition INT64_MAX : Z := 2 ^ 63 - 1.

(** The value an [int64_t] holds after an arithmetic result [z]. *)
Definition int64_wrap (z : Z) : Z := (z + 2 ^ 63) mod 2 ^ 64 - 2 ^ 63.

Definition int64_add (a b : Z) : Z := int64_wrap (a + b).

(** [a / b] on [int64_t]: truncating, and faulting when [b] is zero or
    the quotient does not fit. *)
Inductive ArithmeticFault := DivideByZero | QuotientOverflow.

Definition int64_div (a b : Z) : ArithmeticFault + Z :=
  if b =? 0 then inl DivideByZero
  else if (a =? INT64_MIN) && (b =? -1) then inl QuotientOverflow
  else inr (a ÷ b).

(** Modelled from the spec: [PerfIntCounter] and [PerfMetric] are declared
    outside this file.  A counter is a named integer tally that starts at
    zero (the spec's Counters); it is held in an [int64_t].  A metric is
    what the reporting layer receives: a name, a value and the
    [averaged] flag. *)
Record PerfIntCounter := { counterName : string; getValue : Z }.

Record PerfMetric := { metricName : string; metricValue : Z; averaged : bool }.

Definition newCounter (name : string) : PerfIntCounter :=
  {| counterName := name; getValue := 0 |}.

(** [++counter] and [counter += delta]. *)
Definition increment (c : PerfIntCounter) : PerfIntCounter :=
  {| counterName := counterName c; getValue := int64_add (getValue c) 1 |}.

Definition add (c : PerfIntCounter) (delta : Z) : PerfIntCounter :=
  {| counterName := counterName c; getValue := int64_add (getValue c) delta |}.

Definition getMetric (c : PerfIntCounter) : PerfMetric :=
  {| metricName := counterName c; metricValue := getValue c; averaged := false |}.

(** *** The workload object *)

Record StatusWorkload := {
  clientId : Z;
  testDuration : Q;
  requestsPerSecond : Q;
  requests : PerfIntCounter;
  replies : PerfIntCounter;
  errors : PerfIntCounter;
  totalSize : PerfIntCounter;
  parsedSchema : option StatusObject
}.

Definition with_requests (self : StatusWorkload) (c : PerfIntCounter) : StatusWorkload :=
  {| clientId := clientId self; testDuration := testDuration self;
     requestsPerSecond := requestsPerSecond self;
     requests := c; replies := replies self; errors := errors self;
     totalSize := totalSize self; parsedSchema := parsedSchema self |}.

Definition with_replies (self : StatusWorkload) (c : PerfIntCounter) : StatusWorkload :=
  {| clientId := clientId self; testDuration := testDuration self;
     requestsPerSecond := requestsPerSecond self;
     requests := requests self; replies := c; errors := errors self;
     totalSize := totalSize self; parsedSchema := parsedSchema self |}.

Definition with_errors (self : StatusWorkload) (c : PerfIntCounter) : StatusWorkload :=
  {| clientId := clientId self; testDuration := testDuration self;
     requestsPerSecond := requestsPerSecond self;
     requests := requests self; replies := replies self; errors := c;
     totalSize := totalSize self; parsedSchema := parsedSchema self |}.

Definition with_totalSize (self : StatusWorkload) (c : PerfIntCounter) : StatusWorkload :=
  {| clientId := clientId self; testDuration := testDuration self;
     requestsPerSecond := requestsPerSecond self;
     requests := requests self; replies := replies self; errors := errors self;
     totalSize := c; parsedSchema := parsedSchema self |}.

(** The options the constructor reads.  [schema] is the parsed text of
    the [schema] option after its default has been applied, or [None]
    when that text is empty. *)
Record Options := {
  opt_testDuration : option Q;
  opt_requestsPerSecond : option Q;
  opt_schema : option mValue
}.

Definition getOption {A : Type} (o : option A) (default : A) : A :=
  match o with Some x => x | None => default end.

Section Workload.

Variable check_type_what : Value_type -> Value_type -> string.

(** The constructor.  Reading the parsed schema as an object and the
    walk over it can both throw, and nothing here catches. *)
Definition StatusWorkload_new (wcx_clientId : Z) (options : Options)
    : World -> (Exception + StatusWorkload) * World :=
  fun w =>
    let self parsed :=
      {| clientId := wcx_clientId;
         testDuration := getOption (opt_testDuration options) (10 # 1)%Q;
         requestsPerSecond := getOption (opt_requestsPerSecond options) (1 # 2)%Q;
         requests := newCounter "Status requests issued";
         replies := newCounter "Status replies received";
         errors := newCounter "Status Errors";
         totalSize := newCounter "Status reply size sum";
         parsedSchema := parsed |} in
    match opt_schema options with
    | Some schema =>
        match get_obj check_type_what schema with
        | inl e => (inl e, w)
        | inr o =>
            match schemaCoverageRequirements check_type_what o "" w with
            | (inl e, w') => (inl e, w')
            | (inr _, w') => (inr (self (Some o)), w')
            end
        end
    | None => (inr (self None), w)
    end.

(** [check]: the future it returns is ready at once. *)
Definition check (self : StatusWorkload) : bool :=
  getValue (errors self) =? 0.

(** [getMetrics] appends to [m]; a fault of the division is a fault of
    the call. *)
Definition getMetrics (self : StatusWorkload) (m : list PerfMetric)
    : ArithmeticFault + list PerfMetric :=
  if negb (clientId self =? 0) then inr m
  else
    let m := m ++ [getMetric (requests self)] in
    let m := m ++ [getMetric (replies self)] in
    match
      (if negb (getValue (replies self) =? 0)
       then int64_div (getValue (totalSize self)) (getValue (replies self))
       else inr 0)
    with
    | inl fault => inl fault
    | inr average =>
        let m := m ++ [{| metricName := "Average Reply Size";
                          metricValue := average;
                          averaged := false |}] in
        inr (m ++ [getMetric (errors self)])
    end.

(** *** The probe loop *)

(** What the environment does at the two waits of one iteration: at
    [wait(poisson(...))] the actor is cancelled or the tick fires; then,
    at the wait on [statusFetcher], the actor is cancelled, the fetch
    fails with an error, or a document arrives ([latency] is the clock
    difference [now() - issued] read on arrival). *)
Inductive LoopEvent :=
| CancelAtTick
| CancelAtFetch
| FetchError (e : Error)
| FetchReply (result : StatusObject) (latency : Q).

(** Where the actor stands after the events it was given. *)
Inductive ActorState :=
| Suspended
| Cancelled
| Threw (e : Error).

(** The serialized length of a document ([BinaryWriter::getLength] after
    [save]) and its JSON text ([json_spirit::write_string]); both are
    computed outside this file. *)
Variable serialized_length : StatusObject -> Z.
Variable write_string : mValue -> string.

(** [schemaMatch(schema, result, errorStr, sev, flag)] as the loop sees
    it: a verdict, the text left in [errorStr], and what it did to the
    registry and the log.  It has no access to the workload object.
    Here the call always returns; the loop with a matcher that may throw
    is [Throwing.fetcher] further down. *)
Variable schemaMatch :
  StatusObject -> StatusObject -> Severity -> bool -> World -> (bool * string) * World.

Definition StatusWorkloadReply (size : Z) (latency : Q) : TraceEvent :=
  {| severity := SevInfo;
     eventType := "StatusWorkloadReply";
     details := [("ReplySize", DInt size); ("Latency", DDouble latency)];
     eventError := None |}.

Definition StatusWorkloadValidationFailed (result : StatusObject) : TraceEvent :=
  {| severity := SevError;
     eventType := "StatusWorkloadValidationFailed";
     details := [("JSON", DString (write_string (Obj result)))];
     eventError := None |}.

Definition StatusWorkloadError (e : Error) : TraceEvent :=
  {| severity := SevError;
     eventType := "StatusWorkloadError";
     details := [];
     eventError := Some e |}.

(** The handler [catch (Error& e)] up to its final [throw;]. *)
Definition fetcher_catch (e : Error) (self : StatusWorkload) (w : World)
    : StatusWorkload * World :=
  if negb (code e =? error_code_actor_cancelled)
  then (with_errors self (increment (errors self)), trace (StatusWorkloadError e) w)
  else (self, w).

(** The [try] block after a document has arrived. *)
Definition fetcher_reply (result : StatusObject) (latency : Q)
    (self : StatusWorkload) (w : World) : StatusWorkload * World :=
  let self := with_replies self (increment (replies self)) in
  let length := serialized_length result in
  let self := with_totalSize self (add (totalSize self) length) in
  let w := trace (StatusWorkloadReply length latency) w in
  match parsedSchema self with
  | Some schema =>
      let '((ok, errorStr), w) := schemaMatch schema result SevError true w in
      if negb ok
      then (self, trace (StatusWorkloadValidationFailed result) w)
      else (self, w)
  | None => (self, w)
  end.

(** One turn of [loop]: [None] when the turn ends and the loop goes on. *)
Definition fetcher_iteration (ev : LoopEvent) (self : StatusWorkload) (w : World)
    : option ActorState * StatusWorkload * World :=
  match ev with
  | CancelAtTick => (Some Cancelled, self, w)
  | CancelAtFetch =>
      let self := with_requests self (increment (requests self)) in
      let '(self, w) := fetcher_catch actor_cancelled self w in
      (Some Cancelled, self, w)
  | FetchError e =>
      let self := with_requests self (increment (requests self)) in
      let '(self, w) := fetcher_catch e self w in
      (Some (Threw e), self, w)
  | FetchReply result latency =>
      let self := with_requests self (increment (requests self)) in
      let '(self, w) := fetcher_reply result latency self w in
      (None, self, w)
  end.

(** The actor [fetcher] run on the events [evs]. *)
Fixpoint fetcher (connFile : string) (evs : list LoopEvent)
    (self : StatusWorkload) (w : World) : ActorState * StatusWorkload * World :=
  match evs with
  | [] => (Suspended, self, w)
  | ev :: rest =>
      match fetcher_iteration ev self w with
      | (Some exit, self', w') => (exit, self', w')
      | (None, self', w') => fetcher connFile rest self' w'
      end
  end.

(** *** start *)

Record Cluster := { getConnectionFile : string }.
Record Database := { cluster : option Cluster }.

(** The state of a [Future<Void>]. *)
Inductive Future_Void :=
| Ready
| Failed (e : Error)
| Pending.

Definition StatusWorkloadStartError : TraceEvent :=
  {| severity := SevError;
     eventType := "StatusWorkloadStartError";
     details := [("Reason", DString "NULL cluster")];
     eventError := None |}.

(** Modelled from the spec: [timeout] and [success] are flow's, defined
    outside this file.  The spec's ProbeLoop says what they do here: the
    timer cancels the loop after the test duration and the cancellation
    ends the run cleanly; an error of the loop passes through. *)
Definition success_timeout (st : ActorState) : Future_Void :=
  match st with
  | Cancelled => Ready
  | Threw e => Failed e
  | Suspended => Pending
  end.

Definition start (cx : Database) (evs : list LoopEvent)
    (self : StatusWorkload) (w : World) : Future_Void * StatusWorkload * World :=
  if negb (clientId self =? 0) then (Ready, self, w)
  else
    match cluster cx with
    | None => (Ready, self, trace StatusWorkloadStartError w)
    | Some cl =>
        let '(st, self', w') := fetcher (getConnectionFile cl) evs self w in
        (success_timeout st, self', w')
    end.

End Workload.

(** The events of a run in which every fetch is answered. *)
Definition reply_events (docs : list (StatusObject * Q)) : list LoopEvent :=
  (fun d => FetchReply d.1 d.2) <$> docs.

(** *** Concrete inputs *)

Definition example_length (o : StatusObject) : Z := Z.of_nat (length o).
Definition example_text (v : mValue) : string := "{}".
Definition example_error : Error := {| code := 1004 |}.

(** A matcher that rejects every document. *)
Definition reject_all (schema result : StatusObject) (sev : Severity)
    (strict : bool) (w : World) : (bool * string) * World :=
  ((false, "ERROR"), w).

Definition fresh_workload : StatusWorkload :=
  {| clientId := 0;
     testDuration := (10 # 1)%Q;
     requestsPerSecond := (1 # 2)%Q;
     requests := newCounter "Status requests issued";
     replies := newCounter "Status replies received";
     errors := newCounter "Status Errors";
     totalSize := newCounter "Status reply size sum";
     parsedSchema := None |}.

(** A workload that validates against the schema of the unit test. *)
Definition checking_workload : StatusWorkload :=
  {| clientId := 0;
     testDuration := (10 # 1)%Q;
     requestsPerSecond := (1 # 2)%Q;
     requests := newCounter "Status requests issued";
     replies := newCounter "Status replies received";
     errors := newCounter "Status Errors";
     totalSize := newCounter "Status reply size sum";
     parsedSchema := Some basic_schema |}.

Definition no_options : Options :=
  {| opt_testDuration := None; opt_requestsPerSecond := None; opt_schema := None |}.

(** A run: [docs] are answered one after the other, then [evs] happen. *)
Definition run_after_replies
    (serialized_length : StatusObject -> Z) (write_string : mValue -> string)
    (schemaMatch : StatusObject -> StatusObject -> Severity -> bool -> World ->
                   (bool * string) * World)
    (connFile : string) (docs : list (StatusObject * Q)) (evs : list LoopEvent)
    (self : StatusWorkload) (w : World) : ActorState * StatusWorkload * World :=
  fetcher serialized_length write_string schemaMatch connFile
    (reply_events docs ++ evs) self w.

(** ** The schema matcher *)

Module SchemaValidator.

(** The type classes of rule 2: both kinds of number are one class. *)
Inductive TypeClass := CNull | CBool | CNumber | CString | CArray | CObject.

#[global] Instance TypeClass_eq_dec : EqDecision TypeClass.
Proof. solve_decision. Defined.

Definition type_class (v : mValue) : TypeClass :=
  match v with
  | Obj _ => CObject
  | Array _ => CArray
  | Str _ => CString
  | Bool _ => CBool
  | Int _ | Real _ => CNumber
  | Null => CNull
  end.

(** The entry stored under [key] in a list of named things. *)
Fixpoint lookup_named {A : Type} (key : string) (l : list (string * A)) : option A :=
  match l with
  | [] => None
  | (k, x) :: rest => if String.eqb k key then Some x else lookup_named key rest
  end.

(** Membership of the string [s] in a [$enum] payload. *)
Definition enum_member (s : string) (payload : mValue) : bool :=
  match payload with
  | Array allowed =>
      existsb (fun item => match item with Str a => String.eqb a s | _ => false end)
        allowed
  | _ => false
  end.

(** Rule 1 on a value object [vo], given for each schema key the matcher
    of its entry: no unknown key when [strict], and every declared key
    that is present has a matching value. *)
Definition match_fields (strict : bool) (fields : list (string * (mValue -> bool)))
    (vo : mObject) : bool :=
  (if strict
   then forallb (fun kv => match lookup_named kv.1 fields with
                           | Some _ => true
                           | None => false
                           end) vo
   else true)
  && forallb (fun field => match find field.1 vo with
                           | Some v => field.2 v
                           | None => true
                           end) fields.

(** Modelled from the spec: [schemaMatch] is defined outside this file;
    only its calls and its unit test are here.  This is the verdict [ok]
    of the SchemaValidator contract [matches(schema, value, strict)],
    rule by rule (section 4.1): an object with [$enum] is rule 3, an
    object with [$map] is rule 4, any other object is rule 1, a
    bool/number/string literal is rule 2, a one-element array is rule 5.
    Where no rule of the spec applies (a null schema, an array schema
    that has not exactly one element) nothing matches.  The diagnostic
    text and the severity affect only the report, not the verdict, and
    are left out. *)
Fixpoint matches (strict : bool) (schema value : mValue) {struct schema} : bool :=
  match schema with
  | Obj so =>
      let fields := (fun skv => (skv.1, matches strict skv.2)) <$> so in
      match find "$enum" so with
      | Some payload =>
          match value with
          | Str s => enum_member s payload
          | _ => false
          end
      | None =>
          match lookup_named "$map" fields with
          | Some matches_template =>
              match value with
              | Obj vo => forallb (fun kv => matches_template kv.2) vo
              | _ => false
              end
          | None =>
              match value with
              | Obj vo => match_fields strict fields vo
              | _ => false
              end
          end
      end
  | Array [template] =>
      match value with
      | Array items => forallb (matches strict template) items
      | _ => false
      end
  | Str _ | Bool _ | Int _ | Real _ =>
      bool_decide (type_class schema = type_class value)
  | Array _ | Null => false
  end.

(** The verdict of [schemaMatch(schema, value, errorStr, sev, strict)] on
    two objects. *)
Definition schemaMatch (schema value : StatusObject) (strict : bool) : bool :=
  matches strict (Obj schema) (Obj value).

End SchemaValidator.

(** The matcher as the probe loop calls it: it leaves the registry and
    the log alone and its diagnostic text is not modelled. *)
Definition schemaMatch_call (schema result : StatusObject) (sev : Severity)
    (strict : bool) (w : World) : (bool * string) * World :=
  ((SchemaValidator.schemaMatch schema result strict, ""), w).

(** ** Further notions used to describe the code *)

(** *** Effects of the generator on the registry *)

(** [x] lies under the base path [base]: it is [base], a dot, and more. *)
Definition under (base x : string) : Prop :=
  exists suffix, x = base +:+ "." +:+ suffix.

(** Whatever the state, [f] ends with [res], adds exactly [paths] to the
    required set and leaves the covered set alone. *)
Definition registers (f : Throwing unit) (res : Exception + unit)
    (paths : list string) : Prop :=
  forall w,
    (f w).1 = res /\
    requiredPaths (f w).2 = list_to_set paths ∪ requiredPaths w /\
    coveredPaths (f w).2 = coveredPaths w.

(** [f] has such an effect, with all its paths under [base]. *)
Definition walk_effect (f : Throwing unit) (base : string) : Prop :=
  exists res paths, registers f res paths /\ Forall (under base) paths.

(** *** The events a failing walk logs *)

(** One event with the text of the json_spirit exception, then [k] events
    without details ([k] enclosing calls caught the [unknown_error]). *)
Definition failure_log (what : Value_type -> Value_type -> string)
    (mid : list TraceEvent) : Prop :=
  exists actual expected k,
    mid = SchemaCoverageRequirementsException
            [("What", DString (what actual expected))]
          :: replicate k (SchemaCoverageRequirementsException []).

Definition failing_inside (what : Value_type -> Value_type -> string)
    (e : Exception) (mid : list TraceEvent) : Prop :=
  ((exists actual expected, e = std_exception (what actual expected)) /\ mid = [])
  \/ (e = flow_error unknown_error /\ failure_log what mid).

Definition failing_outside (what : Value_type -> Value_type -> string)
    (e : Exception) (mid : list TraceEvent) : Prop :=
  e = flow_error unknown_error /\ failure_log what mid.

(** *** Runs of the probe loop *)

Definition is_reply (ev : LoopEvent) : Prop :=
  match ev with FetchReply _ _ => True | _ => False end.

(** What the loop never writes: the client, the options, the schema and
    the names of the counters. *)
Definition same_configuration (a b : StatusWorkload) : Prop :=
  clientId a = clientId b /\
  testDuration a = testDuration b /\
  requestsPerSecond a = requestsPerSecond b /\
  parsedSchema a = parsedSchema b /\
  counterName (requests a) = counterName (requests b) /\
  counterName (replies a) = counterName (replies b) /\
  counterName (errors a) = counterName (errors b) /\
  counterName (totalSize a) = counterName (totalSize b).

Definition int64_range (z : Z) : Prop := INT64_MIN <= z <= INT64_MAX.

Definition counters_in_range (self : StatusWorkload) : Prop :=
  int64_range (getValue (requests self)) /\
  int64_range (getValue (replies self)) /\
  int64_range (getValue (errors self)) /\
  int64_range (getValue (totalSize self)).

(** The sum of the serialized lengths of the documents [docs]. *)
Definition total_length (serialized_length : StatusObject -> Z)
    (docs : list (StatusObject * Q)) : Z :=
  foldr (fun d acc => serialized_length d.1 + acc) 0 docs.

(** *** Concrete inputs *)

(** A designated workload that has counted three replies of 10 bytes in
    all. *)
Definition reporting_workload : StatusWorkload :=
  {| clientId := 0;
     testDuration := (10 # 1)%Q;
     requestsPerSecond := (1 # 2)%Q;
     requests := {| counterName := "Status requests issued"; getValue := 3 |};
     replies := {| counterName := "Status replies received"; getValue := 3 |};
     errors := newCounter "Status Errors";
     totalSize := {| counterName := "Status reply size sum"; getValue := 10 |};
     parsedSchema := None |}.

(** *** The read on which a walk throws *)

(** [entry_fault what sv txt r]: visiting an entry with value [sv] throws,
    and [txt] is the text of the json_spirit exception that caused it.
    With [r = None] that exception is raised by a read of the entry
    itself ([get_obj] of the first element of an array, [get_array] of
    the [$enum] payload, [get_str] of the first [$enum] item that is no
    string) and leaves the entry as it is.  With [r = Some k] it was
    raised inside the nested call on the entry's object, which threw
    [unknown_error] after it and [k] calls enclosed in it had caught.

    [object_fault what o txt k]: the walk of the object [o] throws on its
    first unreadable entry; [txt] is the text of the json_spirit
    exception and [k] the number of calls, this one included, that
    caught an [unknown_error] coming from a nested call. *)
Inductive entry_fault (what : Value_type -> Value_type -> string)
    : mValue -> string -> option nat -> Prop :=
| fault_template first rest txt :
    get_obj what first = inl (std_exception txt) ->
    entry_fault what (Array (first :: rest)) txt None
| fault_below_template o rest txt k :
    object_fault what o txt k ->
    entry_fault what (Array (Obj o :: rest)) txt (Some k)
| fault_enum_payload so payload txt :
    find "$enum" so = Some payload ->
    get_array what payload = inl (std_exception txt) ->
    entry_fault what (Obj so) txt None
| fault_enum_item so pre item post txt :
    find "$enum" so = Some (Array (pre ++ item :: post)) ->
    Forall (fun it => type it = str_type) pre ->
    get_str what item = inl (std_exception txt) ->
    entry_fault what (Obj so) txt None
| fault_below_object so txt k :
    find "$enum" so = None ->
    object_fault what so txt k ->
    entry_fault what (Obj so) txt (Some k)
with object_fault (what : Value_type -> Value_type -> string)
    : mObject -> string -> nat -> Prop :=
| fault_at pre key sv post txt r :
    Forall (fun kv => ~ unreadable_entry kv.2) pre ->
    entry_fault what sv txt r ->
    object_fault what (pre ++ (key, sv) :: post) txt
      (match r with None => 0%nat | Some k => S k end).

(** The events a throwing walk appends: the text of the exception, then
    [k] events without details. *)
Definition fault_events (txt : string) (k : nat) : list TraceEvent :=
  SchemaCoverageRequirementsException [("What", DString txt)]
  :: replicate k (SchemaCoverageRequirementsException []).

(** What visiting an entry does, by the three ways it can end. *)
Definition entry_outcome (what : Value_type -> Value_type -> string)
    (sv : mValue) (w : World) (r : (Exception + unit) * World) : Prop :=
  (~ unreadable_entry sv /\ r.1 = inr tt /\ traceLog r.2 = traceLog w)
  \/ (exists txt,
        entry_fault what sv txt None /\
        r.1 = inl (std_exception txt) /\ traceLog r.2 = traceLog w)
  \/ (exists txt k,
        entry_fault what sv txt (Some k) /\
        r.1 = inl (flow_error unknown_error) /\
        traceLog r.2 = traceLog w ++ fault_events txt k).

(** What the walk of an object does, by the two ways it can end. *)
Definition object_outcome (what : Value_type -> Value_type -> string)
    (o : mObject) (w : World) (r : (Exception + unit) * World) : Prop :=
  (~ unreadable_object o /\ r.1 = inr tt /\ traceLog r.2 = traceLog w)
  \/ (exists txt k,
        object_fault what o txt k /\
        r.1 = inl (flow_error unknown_error) /\
        traceLog r.2 = traceLog w ++ fault_events txt k).

(** A schema nested two objects deep whose innermost entry has a
    non-string [$enum] item. *)
Definition deep_bad_schema : StatusObject :=
  [("a", Obj [("b", Obj [("$enum", Array [Str "x"; Int 3; Str "y"])])])].

(** ** The probe loop with a matcher that may throw *)

(** The [try] of the loop encloses the call of [schemaMatch], so a flow
    [Error] thrown by that call reaches the handler like a fetch
    failure: it is logged and counted unless it is the cancellation
    signal, and thrown again.  Here [schemaMatch] either returns its
    verdict and text or throws an [Error]; the loop is otherwise the one
    above. *)
Module Throwing.

Section Loop.

Variable serialized_length : StatusObject -> Z.
Variable write_string : mValue -> string.
Variable schemaMatch :
  StatusObject -> StatusObject -> Severity -> bool -> World ->
  (Error + bool * string) * World.

(** The [try] block after a document has arrived: [Some e] when the
    matcher threw [e]. *)
Definition fetcher_reply (result : StatusObject) (latency : Q)
    (self : StatusWorkload) (w : World) : option Error * StatusWorkload * World :=
  let self := with_replies self (increment (replies self)) in
  let length := serialized_length result in
  let self := with_totalSize self (add (totalSize self) length) in
  let w := trace (StatusWorkloadReply length latency) w in
  match parsedSchema self with
  | Some schema =>
      match schemaMatch schema result SevError true w with
      | (inr (ok, errorStr), w) =>
          if negb ok
          then (None, self, trace (StatusWorkloadValidationFailed write_string result) w)
          else (None, self, w)
      | (inl e, w) => (Some e, self, w)
      end
  | None => (None, self, w)
  end.

Definition fetcher_iteration (ev : LoopEvent) (self : StatusWorkload) (w : World)
    : option ActorState * StatusWorkload * World :=
  match ev with
  | CancelAtTick => (Some Cancelled, self, w)
  | CancelAtFetch =>
      let self := with_requests self (increment (requests self)) in
      let '(self, w) := fetcher_catch actor_cancelled self w in
      (Some Cancelled, self, w)
  | FetchError e =>
      let self := with_requests self (increment (requests self)) in
      let '(self, w) := fetcher_catch e self w in
      (Some (Threw e), self, w)
  | FetchReply result latency =>
      let self := with_requests self (increment (requests self)) in
      match fetcher_reply result latency self w with
      | (None, self, w) => (None, self, w)
      | (Some e, self, w) =>
          let '(self, w) := fetcher_catch e self w in
          (Some (Threw e), self, w)
      end
  end.

Fixpoint fetcher (connFile : string) (evs : list LoopEvent)
    (self : StatusWorkload) (w : World) : ActorState * StatusWorkload * World :=
  match evs with
  | [] => (Suspended, self, w)
  | ev :: rest =>
      match fetcher_iteration ev self w with
      | (Some exit, self', w') => (exit, self', w')
      | (None, self', w') => fetcher connFile rest self' w'
      end
  end.

End Loop.

End Throwing.

(** A matcher that always returns, seen as one that may throw. *)
Definition returning
    (schemaMatch : StatusObject -> StatusObject -> Severity -> bool -> World ->
                   (bool * string) * World)
    (schema result : StatusObject) (sev : Severity) (strict : bool) (w : World)
    : (Error + bool * string) * World :=
  (inr (schemaMatch schema result sev strict w).1,
   (schemaMatch schema result sev strict w).2).

(** The matcher never throws, whatever it is given. *)
Definition never_throws
    (schemaMatch : StatusObject -> StatusObject -> Severity -> bool -> World ->
                   (Error + bool * string) * World) : Prop :=
  forall schema result sev strict w,
    exists v, (schemaMatch schema result sev strict w).1 = inr v.

(** A matcher that throws [unknown_error] on every document. *)
Definition throw_unknown_error (schema result : StatusObject) (sev : Severity)
    (strict : bool) (w : World) : (Error + bool * string) * World :=
  (inl unknown_error, w).

(** * Properties *)

(** ** Objects *)

Lemma find_Some_elem key o v : find key o = Some v -> (key, v) ∈ o.
Proof.
  induction o as [|[k x] rest IH]; simpl; [done|].
  destruct (String.eqb_spec k key) as [->|_].
  - intros [= ->]. apply list_elem_of_here.
  - intros H. apply list_elem_of_further. auto.
Qed.

Lemma find_None_keys key o : find key o = None <-> key ∉ keys o.
Proof.
  unfold keys. induction o as [|[k x] rest IH]; simpl.
  - split; [intros _; apply not_elem_of_nil | done].
  - rewrite not_elem_of_cons. destruct (String.eqb_spec k key) as [->|Hne].
    + split; [done | intros [? _]; done].
    + rewrite IH. split; [intros ?; split; [congruence | done] | intros [_ ?]; done].
Qed.

Lemma count_keys key o : count key o = true <-> key ∈ keys o.
Proof.
  unfold count. destruct (find key o) eqn:E.
  - split; [intros _ | done].
    destruct (decide (key ∈ keys o)) as [|Hn]; [done|].
    apply find_None_keys in Hn. congruence.
  - apply find_None_keys in E. split; [done | intros ?; contradiction].
Qed.

(** ** The range-based loop *)

Lemma for_each_nil {A} (body : A -> Throwing unit) w :
  for_each body [] w = (inr tt, w).
Proof. reflexivity. Qed.

Lemma for_each_cons {A} (body : A -> Throwing unit) x rest w :
  for_each body (x :: rest) w =
  match body x w with
  | (inr _, w') => for_each body rest w'
  | (inl e, w') => (inl e, w')
  end.
Proof. reflexivity. Qed.

Lemma for_each_all_return {A} (body : A -> Throwing unit) l :
  (forall x, x ∈ l -> forall w, (body x w).1 = inr tt) ->
  forall w, (for_each body l w).1 = inr tt.
Proof.
  induction l as [|x rest IH]; intros Hok w; [done|].
  rewrite for_each_cons.
  pose proof (Hok x (list_elem_of_here _ _) w) as Hx.
  destruct (body x w) as [[e|u] w']; simpl in Hx; [done|].
  apply IH. intros y Hy. apply Hok. by apply list_elem_of_further.
Qed.

Lemma for_each_one_throws {A} (body : A -> Throwing unit) l x :
  x ∈ l -> (forall w, throws (body x w)) ->
  forall w, throws (for_each body l w).
Proof.
  intros Hin Hx. induction l as [|y rest IH]; intros w.
  - by apply elem_of_nil in Hin.
  - rewrite for_each_cons. destruct (body y w) as [[e|u] w'] eqn:E.
    + by exists e.
    + apply elem_of_cons in Hin as [->|Hin]; [|by apply IH].
      destruct (Hx w) as [e He]. rewrite E in He. done.
Qed.

(** ** The registry *)

Lemma schemaCoverage_required spath w x :
  x ∈ requiredPaths (schemaCoverage spath false w) <-> x = spath \/ x ∈ requiredPaths w.
Proof. simpl. set_solver. Qed.

Lemma schemaCoverage_required_rest spath w :
  coveredPaths (schemaCoverage spath false w) = coveredPaths w /\
  traceLog (schemaCoverage spath false w) = traceLog w.
Proof. done. Qed.

(** Registering a path twice is registering it once. *)
Lemma schemaCoverage_idempotent spath covered w :
  schemaCoverage spath covered (schemaCoverage spath covered w) =
  schemaCoverage spath covered w.
Proof.
  destruct w as [R C L], covered; unfold schemaCoverage; simpl; f_equal;
    apply set_eq; intros x; rewrite !elem_of_union; tauto.
Qed.

(** ** The generator *)

Section CoverageFacts.

Variable what : Value_type -> Value_type -> string.

Lemma schemaCoverageRequirements_eq schema schema_path :
  schemaCoverageRequirements what schema schema_path =
  coverage_handlers
    (for_each (coverage_entry what (schemaCoverageRequirements_of what) schema_path) schema).
Proof. reflexivity. Qed.

Lemma coverage_handlers_return body w :
  (body w).1 = inr tt -> coverage_handlers body w = body w.
Proof.
  unfold coverage_handlers. destruct (body w) as [[e|[]] w']; simpl; [done|done].
Qed.

Lemma coverage_handlers_throw body w :
  throws (body w) -> (coverage_handlers body w).1 = inl (flow_error unknown_error).
Proof.
  unfold coverage_handlers. intros [e He].
  destruct (body w) as [[[txt|e']|u] w']; simpl in *; done.
Qed.

Lemma register_required_paths paths w x :
  x ∈ requiredPaths (register_required paths w) <-> x ∈ paths \/ x ∈ requiredPaths w.
Proof.
  unfold register_required. revert w.
  induction paths as [|p rest IH]; intros w; cbn [foldl].
  - rewrite elem_of_nil. tauto.
  - rewrite IH, schemaCoverage_required, elem_of_cons. tauto.
Qed.

(** The loop over a [$enum] array of strings makes one call per item. *)
Lemma enum_items_registered spath (values : list string) w :
  for_each (coverage_enum_item what spath) (Str <$> values) w
  = (inr tt, register_required (enum_paths spath values) w).
Proof.
  revert w. induction values as [|v rest IH]; intros w; [done|].
  rewrite fmap_cons, for_each_cons. unfold coverage_enum_item at 1.
  cbn [get_str]. by rewrite IH.
Qed.

Lemma coverage_entry_enum recur schema_path key so payload w :
  find "$enum" so = Some payload ->
  coverage_entry what recur schema_path (key, Obj so) w =
  match get_array what payload with
  | inl e => (inl e, schemaCoverage (schema_path +:+ "." +:+ key) false w)
  | inr items =>
      for_each (coverage_enum_item what (schema_path +:+ "." +:+ key)) items
        (schemaCoverage (schema_path +:+ "." +:+ key) false w)
  end.
Proof. intros H. unfold coverage_entry. by rewrite H. Qed.

Lemma coverage_entry_object recur schema_path key so w :
  find "$enum" so = None ->
  coverage_entry what recur schema_path (key, Obj so) w =
  recur (Obj so) (schema_path +:+ "." +:+ key)
    (schemaCoverage (schema_path +:+ "." +:+ key) false w).
Proof. intros H. unfold coverage_entry. by rewrite H. Qed.

(** *** Which schemas make the generator fail *)

Lemma Exists_or_none {A} (P : A -> Prop) l :
  Forall (fun x => P x \/ ~ P x) l -> Exists P l \/ Forall (fun x => ~ P x) l.
Proof.
  induction 1 as [|x rest [Hx|Hx] _ [IH|IH]].
  - right. constructor.
  - left. by constructor.
  - left. by constructor.
  - left. by constructor 2.
  - right. by constructor.
Qed.

Lemma object_spec_of_entries o :
  Forall (fun kv => entry_spec what kv.2) o -> object_spec what o.
Proof.
  intros Hall.
  assert (Hdec : Forall (fun kv : string * mValue =>
            unreadable_entry kv.2 \/ ~ unreadable_entry kv.2) o).
  { eapply Forall_impl; [exact Hall|]. intros kv [[? _]|[? _]]; tauto. }
  apply Exists_or_none in Hdec as [Hex|Hnone].
  - left. apply Exists_exists in Hex as ([key sv] & Hin & Hbad).
    split; [by eapply unreadable_at|].
    intros schema_path w. rewrite schemaCoverageRequirements_eq.
    apply coverage_handlers_throw.
    eapply for_each_one_throws; [exact Hin|].
    rewrite Forall_forall in Hall. destruct (Hall _ Hin) as [[_ Ht]|[Hn _]]; [|done].
    intros w0. apply Ht.
  - right. rewrite Forall_forall in Hall, Hnone. split.
    + intros Hbad. destruct Hbad as [o key sv Hin Hsv]. by apply (Hnone _ Hin).
    + intros schema_path w. rewrite schemaCoverageRequirements_eq.
      assert (Hret : forall w0, (for_each (coverage_entry what
                 (schemaCoverageRequirements_of what) schema_path) o w0).1 = inr tt).
      { apply for_each_all_return. intros [key sv] Hin w0.
        destruct (Hall _ Hin) as [[Hb _]|[_ Hr]]; [by destruct (Hnone _ Hin)|].
        apply Hr. }
      rewrite coverage_handlers_return; auto.
Qed.

Lemma scalar_entry_returns schema_path key sv w :
  type sv <> obj_type -> type sv <> array_type ->
  coverage_entry what (schemaCoverageRequirements_of what) schema_path (key, sv) w =
  (inr tt, schemaCoverage (schema_path +:+ "." +:+ key) false w).
Proof. destruct sv; simpl; done. Qed.

Lemma entry_and_object_spec (v : mValue) :
  entry_spec what v /\ (forall o, v = Obj o -> object_spec what o).
Proof.
  induction v as [o IH|a IH|s|b|i|r|] using mValue_deep_ind;
    try (split; [|intros ? [=]]; right; split;
         [inversion 1 | intros; by rewrite scalar_entry_returns]).
  - (* an object *)
    assert (Ho : object_spec what o).
    { apply object_spec_of_entries. eapply Forall_impl; [exact IH|]. by intros kv [? _]. }
    split; [|by intros ? [= <-]].
    destruct (find "$enum" o) as [payload|] eqn:Henum.
    + destruct payload as [po|items|ps|pb|pi|pr|];
        try (left; split; [by eapply unreadable_enum_payload|];
             intros; rewrite (coverage_entry_enum _ _ _ _ _ _ Henum); by eexists).
      destruct (Exists_or_none (fun it => type it <> str_type) items) as [Hex|Hall].
      { apply Forall_forall. intros it _. destruct (decide (type it = str_type)); tauto. }
      * left. apply Exists_exists in Hex as (item & Hin & Hty).
        split; [by eapply unreadable_enum_item|].
        intros. rewrite (coverage_entry_enum _ _ _ _ _ _ Henum). cbn [get_array].
        eapply for_each_one_throws; [exact Hin|].
        intros w0. unfold coverage_enum_item.
        destruct item; try (by destruct Hty); by eexists.
      * right. rewrite Forall_forall in Hall. split.
        -- inversion 1 as [| |? ? Hf Hty|? ? ? Hf Hin Hty|? Hf]; subst.
           ++ rewrite Henum in Hf. injection Hf as <-. by apply Hty.
           ++ rewrite Henum in Hf. injection Hf as <-. by apply (Hall _ Hin).
           ++ congruence.
        -- intros. rewrite (coverage_entry_enum _ _ _ _ _ _ Henum). cbn [get_array].
           apply for_each_all_return. intros it Hin w0.
           unfold coverage_enum_item. specialize (Hall _ Hin).
           destruct it; simpl; try done; by destruct Hall.
    + destruct Ho as [[Hbad Ht]|[Hok Hr]].
      * left. split; [by apply unreadable_below_object|].
        intros. rewrite (coverage_entry_object _ _ _ _ _ Henum).
        eexists. apply Ht.
      * right. split.
        -- inversion 1; subst; [congruence | congruence | done].
        -- intros. rewrite (coverage_entry_object _ _ _ _ _ Henum). apply Hr.
  - (* an array *)
    split; [|intros ? [=]].
    destruct a as [|first rest].
    { right. split; [inversion 1 | done]. }
    apply Forall_cons in IH as [[_ Hfirst] _].
    destruct (decide (type first = obj_type)) as [Hty|Hty].
    + destruct first as [o| | | | | |]; try done.
      destruct (Hfirst o eq_refl) as [[Hbad Ht]|[Hok Hr]].
      * left. split; [by apply unreadable_below_template|].
        intros. eexists. apply Ht.
      * right. split; [inversion 1; subst; done|]. intros. apply Hr.
    + left. split; [by apply unreadable_template|].
      intros. destruct first; try done; by eexists.
Qed.

(** *** What a failing run leaves in the log *)

Lemma for_each_log_step {A} (body : A -> Throwing unit) Q l :
  (forall x, x ∈ l -> forall w, log_step Q w (body x w)) ->
  forall w, log_step Q w (for_each body l w).
Proof.
  induction l as [|x rest IH]; intros Hbody w.
  - exists []. split; [by rewrite app_nil_r | done].
  - rewrite for_each_cons.
    destruct (Hbody x (list_elem_of_here _ _) w) as (mid & Hlog & Hres).
    destruct (body x w) as [[e|u] w1]; simpl in *.
    + by exists mid.
    + subst mid. rewrite app_nil_r in Hlog.
      destruct (IH (fun y Hy => Hbody y (list_elem_of_further _ _ _ Hy)) w1)
        as (mid & Hlog' & Hres').
      exists mid. by rewrite Hlog', Hlog.
Qed.

Lemma coverage_handlers_log_step body w :
  log_step (thrown_inside what) w (body w) ->
  log_step (thrown_outside what) w (coverage_handlers body w).
Proof.
  intros (mid & Hlog & Hres). unfold coverage_handlers.
  destruct (body w) as [[[txt|e]|u] w1]; simpl in *.
  - destruct Hres as [[(a & b & [= ->]) ->]|[[=] _]].
    exists [SchemaCoverageRequirementsException [("What", DString (what a b))]].
    simpl. rewrite Hlog, app_nil_r. split; [done|]. split; [done|].
    exists a, b. apply list_elem_of_here.
  - destruct Hres as [[(a & b & [=]) _]|[[= ->] (a & b & Hin)]].
    exists (mid ++ [SchemaCoverageRequirementsException []]).
    simpl. rewrite Hlog, app_assoc. split; [done|]. split; [done|].
    exists a, b. apply elem_of_app. by left.
  - by exists mid.
Qed.

Lemma log_step_check_type (v : mValue) vtype w w' :
  traceLog w' = traceLog w ->
  log_step (thrown_inside what) w (inl (check_type what v vtype), w').
Proof.
  intros Hlog. exists []. simpl. rewrite app_nil_r. split; [done|].
  left. split; [by eexists _, _ | done].
Qed.

Lemma log_step_return Q w w' :
  traceLog w' = traceLog w -> log_step Q w (inr tt, w').
Proof. intros Hlog. exists []. simpl. by rewrite app_nil_r. Qed.

Lemma log_step_outside_inside w res :
  log_step (thrown_outside what) w res -> log_step (thrown_inside what) w res.
Proof.
  intros (mid & Hlog & Hres). exists mid. split; [done|].
  destruct res.1; [by right | done].
Qed.

Lemma traversal_log_step (v : mValue) :
  (forall schema_path key w,
     log_step (thrown_inside what) w
       (coverage_entry what (schemaCoverageRequirements_of what) schema_path (key, v) w))
  /\
  (forall schema_path w,
     log_step (thrown_inside what) w (schemaCoverageRequirements_of what v schema_path w)).
Proof.
  induction v as [o IH|a IH|s|b|i|r|] using mValue_deep_ind;
    try (split; intros; [by apply log_step_return | by apply log_step_check_type]).
  - assert (Hobj : forall schema_path w,
        log_step (thrown_inside what) w
          (schemaCoverageRequirements_of what (Obj o) schema_path w)).
    { intros schema_path w. apply log_step_outside_inside.
      change (schemaCoverageRequirements_of what (Obj o) schema_path)
        with (schemaCoverageRequirements what o schema_path).
      rewrite schemaCoverageRequirements_eq.
      apply coverage_handlers_log_step, for_each_log_step.
      intros [key sv] Hin w0. rewrite Forall_forall in IH.
      apply (IH _ Hin). }
    split; [|exact Hobj].
    intros schema_path key w.
    destruct (find "$enum" o) as [payload|] eqn:Henum.
    + rewrite (coverage_entry_enum _ _ _ _ _ _ Henum).
      destruct payload as [po|items|ps|pb|pi|pr|];
        try (by apply log_step_check_type).
      cbn [get_array].
      assert (Hitems : forall w0, log_step (thrown_inside what) w0
                (for_each (coverage_enum_item what (schema_path +:+ "." +:+ key)) items w0)).
      { apply for_each_log_step. intros it _ w0. unfold coverage_enum_item.
        destruct it; try (by apply log_step_check_type). by apply log_step_return. }
      apply (Hitems (schemaCoverage (schema_path +:+ "." +:+ key) false w)).
    + rewrite (coverage_entry_object _ _ _ _ _ Henum).
      apply (Hobj _ (schemaCoverage (schema_path +:+ "." +:+ key) false w)).
  - split; [|intros; by apply log_step_check_type].
    intros schema_path key w. destruct a as [|first rest].
    + by apply log_step_return.
    + apply Forall_cons in IH as [[_ Hfirst] _].
      apply (Hfirst _ (schemaCoverage (schema_path +:+ "." +:+ key) false w)).
Qed.

End CoverageFacts.

(** ** The exception behind a throwing walk *)

Section FaultFacts.

Variable what : Value_type -> Value_type -> string.

Lemma fault_events_caught txt k :
  fault_events txt k ++ [SchemaCoverageRequirementsException []]
  = fault_events txt (S k).
Proof. unfold fault_events. cbn [app]. by rewrite replicate_S_end. Qed.

Lemma enum_item_string spath s w :
  coverage_enum_item what spath (Str s) w
  = (inr tt, schemaCoverage (spath +:+ ".$enum." +:+ s) false w).
Proof. reflexivity. Qed.

Lemma enum_item_other spath it w :
  type it <> str_type ->
  coverage_enum_item what spath it w = (inl (check_type what it str_type), w) /\
  get_str what it = inl (check_type what it str_type).
Proof. by destruct it. Qed.

(** The loop over the items of a [$enum] array ends at its first item
    that is no string. *)
Lemma enum_items_outcome spath items w :
  (Forall (fun it => type it = str_type) items /\
   (for_each (coverage_enum_item what spath) items w).1 = inr tt /\
   traceLog (for_each (coverage_enum_item what spath) items w).2 = traceLog w)
  \/
  (exists pre item post txt,
     items = pre ++ item :: post /\
     Forall (fun it => type it = str_type) pre /\
     get_str what item = inl (std_exception txt) /\
     (for_each (coverage_enum_item what spath) items w).1 = inl (std_exception txt) /\
     traceLog (for_each (coverage_enum_item what spath) items w).2 = traceLog w).
Proof.
  revert w. induction items as [|it rest IH]; intros w.
  - left. by split.
  - rewrite for_each_cons.
    destruct (decide (type it = str_type)) as [Hty|Hty].
    + destruct it as [| |s| | | |]; try done. rewrite enum_item_string.
      destruct (IH (schemaCoverage (spath +:+ ".$enum." +:+ s) false w))
        as [(Hall & Hres & Hlog)|(pre & item & post & txt & -> & Hpre & Hget & Hres & Hlog)].
      * left. split; [by constructor | done].
      * right. exists (Str s :: pre), item, post, txt.
        split; [done|]. split; [by constructor | done].
    + destruct (enum_item_other spath it w Hty) as [-> Hget].
      right. exists [], it, rest, (what (type it) str_type).
      split; [done|]. split; [constructor|]. split; [exact Hget | done].
Qed.

(** The loop over the entries of an object ends at its first entry that
    throws. *)
Lemma entries_outcome schema_path (l : mObject) :
  Forall (fun kv => forall p key w,
            entry_outcome what kv.2 w
              (coverage_entry what (schemaCoverageRequirements_of what) p (key, kv.2) w)) l ->
  forall w,
    let r := for_each (coverage_entry what (schemaCoverageRequirements_of what)
                         schema_path) l w in
    (Forall (fun kv => ~ unreadable_entry kv.2) l /\
     r.1 = inr tt /\ traceLog r.2 = traceLog w)
    \/
    (exists pre key sv post txt res,
       l = pre ++ (key, sv) :: post /\
       Forall (fun kv => ~ unreadable_entry kv.2) pre /\
       entry_fault what sv txt res /\
       match res with
       | None => r.1 = inl (std_exception txt) /\ traceLog r.2 = traceLog w
       | Some k =>
           r.1 = inl (flow_error unknown_error) /\
           traceLog r.2 = traceLog w ++ fault_events txt k
       end).
Proof.
  induction 1 as [|[key sv] rest Hx _ IH]; intros w; cbn zeta.
  - left. by split.
  - rewrite for_each_cons.
    destruct (Hx schema_path key w) as
      [(Hok & Hres & Hlog)|[(txt & Hf & Hres & Hlog)|(txt & k & Hf & Hres & Hlog)]];
      cbn [snd] in *.
    + destruct (coverage_entry _ _ _ _ w) as [[e|[]] w1]; cbn in Hres, Hlog; [done|].
      destruct (IH w1) as
        [(Hall & Hr & Hl)|(pre & key' & sv' & post & txt & res & -> & Hpre & Hf & Hr)].
      * left. split; [by constructor|]. by rewrite Hl.
      * right. exists ((key, sv) :: pre), key', sv', post, txt, res.
        split; [done|]. split; [by constructor|]. split; [done|].
        rewrite <- Hlog. exact Hr.
    + right. exists [], key, sv, rest, txt, None.
      destruct (coverage_entry _ _ _ _ w) as [[e|u] w1]; cbn in Hres, Hlog; [|done].
      by injection Hres as ->.
    + right. exists [], key, sv, rest, txt, (Some k).
      destruct (coverage_entry _ _ _ _ w) as [[e|u] w1]; cbn in Hres, Hlog; [|done].
      by injection Hres as ->.
Qed.

Lemma object_outcome_of_entries (o : mObject) :
  Forall (fun kv => forall p key w,
            entry_outcome what kv.2 w
              (coverage_entry what (schemaCoverageRequirements_of what) p (key, kv.2) w)) o ->
  forall schema_path w,
    object_outcome what o w (schemaCoverageRequirements what o schema_path w).
Proof.
  intros Hall schema_path w. rewrite schemaCoverageRequirements_eq.
  unfold coverage_handlers.
  destruct (entries_outcome schema_path o Hall w) as
    [(Hok & Hres & Hlog)|(pre & key & sv & post & txt & res & -> & Hpre & Hf & Hr)].
  - left. destruct (for_each _ o w) as [[e|[]] w1]; cbn in Hres, Hlog; [done|].
    split; [|done]. intros Hbad. destruct Hbad as [o key sv Hin Hsv].
    rewrite Forall_forall in Hok. by apply (Hok _ Hin).
  - right. exists txt, (match res with None => 0%nat | Some k => S k end).
    split; [by constructor|].
    destruct (for_each _ (pre ++ (key, sv) :: post) w) as [[e|u] w1];
      destruct res as [k|]; cbn in Hr; destruct Hr as [Hres Hlog]; try done;
      injection Hres as ->; cbn; rewrite Hlog; split; try done.
    by rewrite <- app_assoc, fault_events_caught.
Qed.

Lemma entry_and_object_outcome (v : mValue) :
  (forall schema_path key w,
     entry_outcome what v w
       (coverage_entry what (schemaCoverageRequirements_of what) schema_path (key, v) w))
  /\
  (forall o, v = Obj o ->
     forall schema_path w,
       object_outcome what o w (schemaCoverageRequirements what o schema_path w)).
Proof.
  induction v as [o IH|a IH|s|b|i|r|] using mValue_deep_ind;
    try (split; [|intros ? [=]]; intros; left; split; [inversion 1 | done]).
  - assert (Ho : forall schema_path w,
              object_outcome what o w (schemaCoverageRequirements what o schema_path w)).
    { apply object_outcome_of_entries. eapply Forall_impl; [exact IH|].
      by intros kv [? _]. }
    split; [|by intros ? [= <-]]. intros schema_path key w.
    destruct (find "$enum" o) as [payload|] eqn:Henum.
    + rewrite (coverage_entry_enum _ _ _ _ _ _ _ Henum).
      destruct payload as [po|items|ps|pb|pi|pr|];
        try (right; left; eexists; split;
             [by eapply fault_enum_payload | done]).
      cbn [get_array].
      destruct (enum_items_outcome (schema_path +:+ "." +:+ key) items
                  (schemaCoverage (schema_path +:+ "." +:+ key) false w))
        as [(Hall & Hres & Hlog)|(pre & item & post & txt & -> & Hpre & Hget & Hres & Hlog)].
      * left. split; [|done].
        inversion 1 as [| |? ? Hf Hty|? ? ? Hf Hin Hty|? Hf]; subst.
        -- rewrite Henum in Hf. injection Hf as <-. by apply Hty.
        -- rewrite Henum in Hf. injection Hf as <-.
           rewrite Forall_forall in Hall. by apply Hty, Hall.
        -- congruence.
      * right. left. exists txt. split; [by eapply fault_enum_item | done].
    + rewrite (coverage_entry_object _ _ _ _ _ _ Henum).
      destruct (Ho (schema_path +:+ "." +:+ key)
                  (schemaCoverage (schema_path +:+ "." +:+ key) false w))
        as [(Hok & Hres & Hlog)|(txt & k & Hf & Hres & Hlog)].
      * left. split; [|done]. inversion 1; subst; [congruence | congruence | done].
      * right. right. exists txt, k. split; [by apply fault_below_object | done].
  - split; [|intros ? [=]]. intros schema_path key w.
    destruct a as [|first rest].
    { left. split; [inversion 1 | done]. }
    apply Forall_cons in IH as [[_ Hfirst] _].
    destruct first as [o|a'|s|b|i|r|];
      try (right; left; eexists; split; [by eapply fault_template | done]).
    destruct (Hfirst o eq_refl ((schema_path +:+ "." +:+ key) +:+ "[0]")
                (schemaCoverage (schema_path +:+ "." +:+ key) false w))
      as [(Hok & Hres & Hlog)|(txt & k & Hf & Hres & Hlog)].
    + left. split; [|done]. inversion 1; subst; done.
    + right. right. exists txt, k. split; [by apply fault_below_template | done].
Qed.

Lemma generator_outcome schema schema_path w :
  object_outcome what schema w (schemaCoverageRequirements what schema schema_path w).
Proof. apply (proj2 (entry_and_object_outcome (Obj schema)) schema eq_refl). Qed.

(** *** The fault of a schema is unique *)

Lemma first_split_unique {A} (Q : A -> Prop) pre x post pre' x' post' :
  pre ++ x :: post = pre' ++ x' :: post' ->
  Forall Q pre -> ~ Q x -> Forall Q pre' -> ~ Q x' ->
  pre = pre' /\ x = x' /\ post = post'.
Proof.
  revert pre'. induction pre as [|y pre IH]; intros [|y' pre'] Heq Hpre Hx Hpre' Hx';
    cbn in Heq.
  - by injection Heq as -> ->.
  - injection Heq as -> _. apply Forall_cons in Hpre' as [Hy _]. done.
  - injection Heq as -> _. apply Forall_cons in Hpre as [Hy _]. done.
  - injection Heq as -> Heq.
    apply Forall_cons in Hpre as [_ Hpre]. apply Forall_cons in Hpre' as [_ Hpre'].
    destruct (IH pre' Heq Hpre Hx Hpre' Hx') as (-> & -> & ->). done.
Qed.

Lemma get_str_throws it txt :
  get_str what it = inl (std_exception txt) -> type it <> str_type.
Proof. by destruct it. Qed.

Lemma get_array_throws payload txt :
  get_array what payload = inl (std_exception txt) -> type payload <> array_type.
Proof. by destruct payload. Qed.

Lemma get_obj_throws first txt :
  get_obj what first = inl (std_exception txt) -> type first <> obj_type.
Proof. by destruct first. Qed.

Lemma fault_is_unreadable (v : mValue) :
  (forall txt r, entry_fault what v txt r -> unreadable_entry v) /\
  (forall o, v = Obj o ->
     forall txt k, object_fault what o txt k -> unreadable_object o).
Proof.
  induction v as [o IH|a IH|s|b|i|r|] using mValue_deep_ind;
    try (split; [by inversion 1 | by intros ? [=]]).
  - assert (Ho : forall txt k, object_fault what o txt k -> unreadable_object o).
    { intros t k Hf. inversion Hf as [pre key sv post t0 res Hpre Hsv]; subst.
      rewrite Forall_forall in IH.
      assert (Hin : (key, sv) ∈ pre ++ (key, sv) :: post).
      { apply elem_of_app. right. apply list_elem_of_here. }
      eapply unreadable_at; [exact Hin|].
      by apply (proj1 (IH _ Hin) t res). }
    split; [|by intros ? [= <-]].
    intros txt r Hf. inversion Hf; subst.
    + eapply unreadable_enum_payload; [done|]. by eapply get_array_throws.
    + eapply unreadable_enum_item; [done| |by eapply get_str_throws].
      apply elem_of_app. right. apply list_elem_of_here.
    + apply unreadable_below_object; [done|]. by eapply Ho.
  - split; [|intros ? [=]]. intros txt r Hf. inversion Hf; subst.
    + apply unreadable_template. by eapply get_obj_throws.
    + apply Forall_cons in IH as [[_ Hfirst] _].
      apply unreadable_below_template. by eapply (Hfirst _ eq_refl).
Qed.

Lemma fault_functional (v : mValue) :
  (forall txt r txt' r',
     entry_fault what v txt r -> entry_fault what v txt' r' -> txt = txt' /\ r = r') /\
  (forall o, v = Obj o ->
     forall txt k txt' k',
       object_fault what o txt k -> object_fault what o txt' k' ->
       txt = txt' /\ k = k').
Proof.
  induction v as [o IH|a IH|s|b|i|r|] using mValue_deep_ind;
    try (split; [by inversion 1 | by intros ? [=]]).
  - assert (Ho : forall txt k txt' k',
              object_fault what o txt k -> object_fault what o txt' k' ->
              txt = txt' /\ k = k').
    { intros txt k txt' k' H1 H2.
      inversion H1 as [pre key sv post t r Hpre Hsv Heq]; subst.
      inversion H2 as [pre' key' sv' post' t' r' Hpre' Hsv' Heq']; subst.
      destruct (first_split_unique (fun kv : string * mValue => ~ unreadable_entry kv.2)
                  _ _ _ _ _ _ Heq' Hpre'
                  (fun H => H (proj1 (fault_is_unreadable sv') _ _ Hsv')) Hpre
                  (fun H => H (proj1 (fault_is_unreadable sv) _ _ Hsv)))
        as (-> & [= -> ->] & ->).
      rewrite Forall_forall in IH.
      assert (Hin : (key, sv) ∈ pre ++ (key, sv) :: post).
      { apply elem_of_app. right. apply list_elem_of_here. }
      destruct (proj1 (IH _ Hin) _ _ _ _ Hsv Hsv') as [-> ->]. done. }
    split; [|by intros ? [= <-]].
    intros txt r txt' r' H1 H2.
    inversion H1; inversion H2; subst; try congruence.
    all: try (match goal with
              | Ha : find "$enum" ?x = Some _, Hb : find "$enum" ?x = Some _ |- _ =>
                  rewrite Ha in Hb; injection Hb as Hb
              end).
    all: try (subst; split; congruence).
    all: try (subst; cbn in *; discriminate).
    + match goal with
      | Heq : ?p1 ++ ?i1 :: _ = ?p2 ++ ?i2 :: _,
        Hp1 : Forall _ ?p1, Hg1 : get_str what ?i1 = _,
        Hp2 : Forall _ ?p2, Hg2 : get_str what ?i2 = _ |- _ =>
          destruct (first_split_unique (fun it => type it = str_type)
                      _ _ _ _ _ _ Heq Hp1 (get_str_throws _ _ Hg1)
                      Hp2 (get_str_throws _ _ Hg2)) as (-> & -> & ->);
          rewrite Hg1 in Hg2; by injection Hg2 as ->
      end.
    + match goal with
      | Hk1 : object_fault what _ _ ?k1, Hk2 : object_fault what _ _ ?k2 |- _ =>
          by destruct (Ho _ _ _ _ Hk1 Hk2) as [-> ->]
      end.
  - split; [|by intros ? [=]]. intros txt r txt' r' H1 H2.
    inversion H1; inversion H2; subst.
    all: try (match goal with
              | Heq : _ :: _ = _ :: _ |- _ => injection Heq as Heq1 Heq2
              end).
    all: try (subst; split; congruence).
    all: try (subst; cbn in *; discriminate).
    apply Forall_cons in IH as [[_ Hfirst] _].
    match goal with
    | Hk1 : object_fault what ?o1 _ ?k1, Hk2 : object_fault what ?o2 _ ?k2 |- _ =>
        assert (o1 = o2) as -> by congruence;
        by destruct (Hfirst _ eq_refl _ _ _ _ Hk1 Hk2) as [-> ->]
    end.
Qed.

Lemma object_fault_unique schema txt k txt' k' :
  object_fault what schema txt k -> object_fault what schema txt' k' ->
  txt = txt' /\ k = k'.
Proof. apply (proj2 (fault_functional (Obj schema)) schema eq_refl). Qed.

End FaultFacts.

(** *** What the generator registers, and when it throws *)

(** C4, as the code has it.  When the generator reaches an entry [key]
    that is an enum directive (an object with a [$enum] array of strings)
    under [schema_path], the entry returns normally after calling
    [schemaCoverage(p, false)] first for the bare path
    [schema_path.key] and then for [schema_path.key.$enum.v], one call
    per allowed value [v] in order; the required set gains exactly these
    paths. *)
Theorem enum_entry_registers_bare_and_value_paths
    (what : Value_type -> Value_type -> string)
    (recur : mValue -> string -> Throwing unit)
    (schema_path key : string) (so : mObject) (values : list string) (w : World) :
  find "$enum" so = Some (Array (Str <$> values)) ->
  coverage_entry what recur schema_path (key, Obj so) w
  = (inr tt,
     register_required
       ((schema_path +:+ "." +:+ key)
          :: enum_paths (schema_path +:+ "." +:+ key) values) w) /\
  (forall x,
     x ∈ requiredPaths (coverage_entry what recur schema_path (key, Obj so) w).2 <->
     x = schema_path +:+ "." +:+ key \/
     x ∈ enum_paths (schema_path +:+ "." +:+ key) values \/
     x ∈ requiredPaths w).
Proof.
  intros Henum. rewrite (coverage_entry_enum _ _ _ _ _ _ _ Henum). cbn [get_array].
  rewrite enum_items_registered. split; [done|].
  intros x. cbn [snd]. rewrite register_required_paths, schemaCoverage_required. tauto.
Qed.

Lemma enum_entry_registers_witness :
  find "$enum" [("$enum", Array (Str <$> ["foo"; "bar"]))]
  = Some (Array (Str <$> ["foo"; "bar"])) /\
  coverage_entry json_spirit_what (schemaCoverageRequirements_of json_spirit_what) ""
    ("en", Obj [("$enum", Array (Str <$> ["foo"; "bar"]))]) emptyWorld
  = (inr tt, register_required [".en"; ".en.$enum.foo"; ".en.$enum.bar"] emptyWorld).
Proof.
  split; [reflexivity|].
  apply (enum_entry_registers_bare_and_value_paths json_spirit_what
           (schemaCoverageRequirements_of json_spirit_what) "" "en"
           [("$enum", Array (Str <$> ["foo"; "bar"]))] ["foo"; "bar"] emptyWorld).
  reflexivity.
Defined.

(** Counterexample to C4 as the specification words it.  On the schema
    [{"en":{"$enum":["foo","bar"]}}] the generator returns normally and
    the bare path [.en] of the enum directive is in the required set,
    which did not hold it before. *)
Lemma enum_bare_path_is_registered :
  (schemaCoverageRequirements json_spirit_what enum_only_schema "" emptyWorld).1 = inr tt /\
  (".en" ∉ requiredPaths emptyWorld) /\
  (".en" ∈ requiredPaths
             (schemaCoverageRequirements json_spirit_what enum_only_schema "" emptyWorld).2).
Proof.
  split; [by vm_compute|]. split; [apply not_elem_of_empty|].
  apply (bool_decide_unpack _). by vm_compute.
Qed.

(** C5, as the code has it.  The generator throws exactly on the
    unreadable schemas: those where the traversal meets a non-empty array
    whose first element is no object, a [$enum] payload that is no
    array, or a [$enum] item that is no string; on every other schema it
    returns.  An array entry with zero elements is not unreadable: the
    size test skips it, and the entry only registers its own path. *)
Theorem generator_throws_exactly_on_unreadable
    (what : Value_type -> Value_type -> string)
    (schema : StatusObject) (schema_path : string) (w : World) :
  ((schemaCoverageRequirements what schema schema_path w).1
     = inl (flow_error unknown_error) <-> unreadable_object schema) /\
  ((schemaCoverageRequirements what schema schema_path w).1 = inr tt
     <-> ~ unreadable_object schema) /\
  ~ unreadable_entry (Array []) /\
  (forall key,
     coverage_entry what (schemaCoverageRequirements_of what) schema_path (key, Array []) w
     = (inr tt, schemaCoverage (schema_path +:+ "." +:+ key) false w)).
Proof.
  destruct (proj2 (entry_and_object_spec what (Obj schema)) schema eq_refl)
    as [[Hbad Ht]|[Hok Hr]].
  - split; [by rewrite Ht|]. split; [rewrite Ht; split; [done | tauto]|].
    split; [inversion 1 | done].
  - split; [rewrite Hr; split; [done | tauto]|]. split; [by rewrite Hr|].
    split; [inversion 1 | done].
Qed.

Lemma generator_throws_exactly_on_unreadable_witness :
  ~ unreadable_object empty_array_schema /\
  (schemaCoverageRequirements json_spirit_what empty_array_schema "" emptyWorld).1 = inr tt /\
  unreadable_object bad_template_schema /\
  (schemaCoverageRequirements json_spirit_what bad_template_schema "" emptyWorld).1
  = inl (flow_error unknown_error).
Proof.
  destruct (generator_throws_exactly_on_unreadable json_spirit_what
              empty_array_schema "" emptyWorld) as (_ & Hok & _).
  destruct (generator_throws_exactly_on_unreadable json_spirit_what
              bad_template_schema "" emptyWorld) as (Hbad & _).
  split; [apply Hok; reflexivity|]. split; [reflexivity|].
  split; [apply Hbad; reflexivity | reflexivity].
Defined.

(** Counterexample to C5 as the specification words it.  The schema
    [{"arr":[]}] holds an array entry with zero elements and the
    generator returns normally on it. *)
Lemma empty_array_schema_is_accepted :
  ("arr", Array []) ∈ empty_array_schema /\
  ~ throws (schemaCoverageRequirements json_spirit_what empty_array_schema "" emptyWorld) /\
  (schemaCoverageRequirements json_spirit_what empty_array_schema "" emptyWorld).1 = inr tt.
Proof.
  split; [apply list_elem_of_here|]. split; [|by vm_compute].
  intros [e He]. vm_compute in He. discriminate He.
Qed.

(** C6.  Whenever the generator throws, what reaches the caller is
    [unknown_error()], whatever was thrown inside and whatever text it
    carried: the same value comes back for any exception text.  The
    text is in the trace log instead.  The run only appends events, and
    they are these: first one [SchemaCoverageRequirementsException]
    whose [What] detail is the text [txt] of the json_spirit exception
    raised by the failing read of the schema, then [k] such events
    without details, one for each call that caught the [unknown_error]
    of a nested call.  The failing read, and with it [txt] and [k], is
    fixed by the schema ([object_fault]) and no other text or count
    fits it. *)
Theorem traversal_exception_resignaled_as_unknown_error
    (what : Value_type -> Value_type -> string)
    (schema : StatusObject) (schema_path : string) (w : World) (e : Exception) :
  (schemaCoverageRequirements what schema schema_path w).1 = inl e ->
  e = flow_error unknown_error /\
  (forall what', (schemaCoverageRequirements what' schema schema_path w).1 = inl e) /\
  (exists mid,
     traceLog (schemaCoverageRequirements what schema schema_path w).2 = traceLog w ++ mid /\
     logged_detail what mid) /\
  exists txt k,
    object_fault what schema txt k /\
    (forall txt' k', object_fault what schema txt' k' -> txt' = txt /\ k' = k) /\
    traceLog (schemaCoverageRequirements what schema schema_path w).2
    = traceLog w
      ++ SchemaCoverageRequirementsException [("What", DString txt)]
         :: replicate k (SchemaCoverageRequirementsException []).
Proof.
  intros He.
  destruct (proj2 (traversal_log_step what (Obj schema)) schema_path w)
    as (mid & Hlog & Hres).
  change (schemaCoverageRequirements_of what (Obj schema) schema_path w)
    with (schemaCoverageRequirements what schema schema_path w) in Hlog, Hres.
  assert (Hgen : e = flow_error unknown_error).
  { rewrite schemaCoverageRequirements_eq in He. unfold coverage_handlers in He.
    destruct (for_each _ schema w) as [[[txt|e0]|u] w1]; simpl in He; congruence. }
  subst e. split; [done|]. split; [|split].
  - intros what'.
    destruct (proj2 (entry_and_object_spec what (Obj schema)) schema eq_refl)
      as [[Hbad _]|[_ Hr]].
    + destruct (proj2 (entry_and_object_spec what' (Obj schema)) schema eq_refl)
        as [[_ Ht]|[Hok _]]; [apply Ht | done].
    + specialize (Hr schema_path w). rewrite He in Hr. done.
  - exists mid. split; [done|]. rewrite He in Hres.
    destruct Hres as [[(a & b & [=]) _]|[_ Hd]]. done.
  - destruct (generator_outcome what schema schema_path w)
      as [(_ & Hret & _)|(txt & k & Hf & _ & Hfault)]; [by rewrite He in Hret|].
    exists txt, k. split; [done|]. split; [|done].
    intros txt' k' Hf'. by destruct (object_fault_unique what schema _ _ _ _ Hf Hf').
Qed.

Lemma traversal_exception_resignaled_as_unknown_error_witness :
  (schemaCoverageRequirements json_spirit_what deep_bad_schema "" emptyWorld).1
  = inl (flow_error unknown_error) /\
  (forall what',
     (schemaCoverageRequirements what' deep_bad_schema "" emptyWorld).1
     = inl (flow_error unknown_error)) /\
  exists txt k,
    object_fault json_spirit_what deep_bad_schema txt k /\
    (forall txt' k',
       object_fault json_spirit_what deep_bad_schema txt' k' -> txt' = txt /\ k' = k) /\
    traceLog (schemaCoverageRequirements json_spirit_what deep_bad_schema ""
                emptyWorld).2
    = traceLog emptyWorld
      ++ SchemaCoverageRequirementsException [("What", DString txt)]
         :: replicate k (SchemaCoverageRequirementsException []).
Proof.
  split; [reflexivity|].
  destruct (traversal_exception_resignaled_as_unknown_error json_spirit_what
              deep_bad_schema "" emptyWorld (flow_error unknown_error) eq_refl)
    as (_ & Hany & _ & Hlog).
  split; [exact Hany | exact Hlog].
Defined.

(** The failing read of the schema [{"a":{"b":{"$enum":["x",3,"y"]}}}] is
    the [get_str] of the item [3], inside the call on the object under
    [a]; the top call catches once. *)
Example deep_bad_schema_fault :
  object_fault json_spirit_what deep_bad_schema "value type is 4 not 2" 1 /\
  traceLog (schemaCoverageRequirements json_spirit_what deep_bad_schema ""
              emptyWorld).2
  = [SchemaCoverageRequirementsException
       [("What", DString "value type is 4 not 2")];
     SchemaCoverageRequirementsException []].
Proof.
  split; [|reflexivity].
  apply (fault_at json_spirit_what [] "a"
           (Obj [("b", Obj [("$enum", Array [Str "x"; Int 3; Str "y"])])]) []
           "value type is 4 not 2" (Some 0%nat)); [constructor|].
  apply fault_below_object; [reflexivity|].
  apply (fault_at json_spirit_what [] "b"
           (Obj [("$enum", Array [Str "x"; Int 3; Str "y"])]) []
           "value type is 4 not 2" None); [constructor|].
  apply (fault_enum_item json_spirit_what _ [Str "x"] (Int 3) [Str "y"]);
    [reflexivity | by repeat constructor | reflexivity].
Qed.

(** ** The schema matcher *)

Module SchemaValidatorFacts.
Import SchemaValidator.

Lemma lookup_named_fields {A} (f : mValue -> A) key (so : mObject) :
  lookup_named key ((fun skv => (skv.1, f skv.2)) <$> so) = f <$> find key so.
Proof.
  induction so as [|[k sv] rest IH]; simpl; [done|].
  by destruct (String.eqb k key).
Qed.

Lemma matches_enum strict so payload value :
  find "$enum" so = Some payload ->
  matches strict (Obj so) value =
  match value with Str s => enum_member s payload | _ => false end.
Proof. intros H. cbn [matches]. by rewrite H. Qed.

Lemma matches_map strict so template value :
  find "$enum" so = None -> find "$map" so = Some template ->
  matches strict (Obj so) value =
  match value with
  | Obj vo => forallb (fun kv => matches strict template kv.2) vo
  | _ => false
  end.
Proof.
  intros He Hm. cbn [matches]. by rewrite He, lookup_named_fields, Hm.
Qed.

Lemma matches_plain strict so value :
  find "$enum" so = None -> find "$map" so = None ->
  matches strict (Obj so) value =
  match value with
  | Obj vo => match_fields strict ((fun skv => (skv.1, matches strict skv.2)) <$> so) vo
  | _ => false
  end.
Proof.
  intros He Hm. cbn [matches]. by rewrite He, lookup_named_fields, Hm.
Qed.

Lemma find_insert_other key' key sv (pre post : mObject) :
  key' <> key ->
  find key' (pre ++ (key, sv) :: post) = find key' (pre ++ post).
Proof.
  intros Hne. induction pre as [|[k x] rest IH]; simpl.
  - destruct (String.eqb_spec key key'); [congruence | done].
  - by rewrite IH.
Qed.

Lemma forallb_elem_of {A} (f : A -> bool) l :
  forallb f l = true <-> forall x, x ∈ l -> f x = true.
Proof.
  rewrite forallb_forall. split; intros H x Hx; apply H; by apply list_elem_of_In.
Qed.

Lemma forallb_ext_elem_of {A} (f g : A -> bool) l :
  (forall x, x ∈ l -> f x = g x) -> forallb f l = forallb g l.
Proof.
  induction l as [|x rest IH]; intros H; simpl; [done|].
  rewrite (H x (list_elem_of_here _ _)), IH; [done|].
  intros y Hy. apply H. by apply list_elem_of_further.
Qed.

Lemma elem_of_keys (o : mObject) key v : (key, v) ∈ o -> key ∈ keys o.
Proof. intros H. unfold keys. apply list_elem_of_fmap. by exists (key, v). Qed.

Lemma known_key_in_schema key (so : mObject) (f : mValue -> mValue -> bool) :
  match lookup_named key ((fun skv => (skv.1, f skv.2)) <$> so) with
  | Some _ => true
  | None => false
  end = count key so.
Proof. rewrite lookup_named_fields. unfold count. by destruct (find key so). Qed.

End SchemaValidatorFacts.

Import SchemaValidator SchemaValidatorFacts.

(** The unit test [/fdbserver/status/schema/basic]: the twelve verdicts
    it asserts, in its order. *)
Example schema_basic_test_case :
  let check expect_ok value := schemaMatch basic_schema value true = expect_ok in
  check true [] /\
  check true [("apple", Int 4)] /\
  check false [("apple", Str "wrongtype")] /\
  check false [("extrathingy", Int 1)] /\
  check true [("banana", Str "b"); ("sub", Obj [("thing", Bool false)])] /\
  check false [("banana", Str "b"); ("sub", Obj [("thing", Bool false); ("x", Int 0)])] /\
  check true [("arr", Array [Obj []; Obj [("a", Int 0)]])] /\
  check false [("arr", Array [Obj [("a", Int 0)]; Obj [("c", Int 0)]])] /\
  check true [("en", Str "bar")] /\
  check false [("en", Str "baz")] /\
  check true [("mapped", Obj [("item1", Obj [("x", Bool false)]); ("item2", Obj [])])] /\
  check false [("mapped", Obj [("item1", Obj [("x", Bool false)]); ("item2", Obj [("y", Int 1)])])].
Proof. repeat split; reflexivity. Qed.

(** C2.  For an object schema [so] without [$enum] and [$map] and the
    strict matcher: a value object matches only if each of its keys is a
    key of the schema; a declared key that the value does not have is
    accepted, that is, declaring one more field [key] anywhere in the
    schema changes no verdict on a value without [key]; and the empty
    object matches. *)
Theorem closed_world_with_optional_fields (so vo : mObject) :
  find "$enum" so = None -> find "$map" so = None ->
  (schemaMatch so vo true = true -> forall key, key ∈ keys vo -> key ∈ keys so) /\
  (forall strict pre post key sv,
     so = pre ++ post -> key ∉ keys vo -> key <> "$enum" -> key <> "$map" ->
     schemaMatch (pre ++ (key, sv) :: post) vo strict = schemaMatch so vo strict) /\
  (forall strict, schemaMatch so [] strict = true).
Proof.
  intros He Hm. unfold schemaMatch. repeat split.
  - rewrite (matches_plain _ _ _ He Hm). unfold match_fields.
    intros H key Hkey. apply andb_prop in H as [Hknown _].
    unfold keys in Hkey. apply list_elem_of_fmap in Hkey as ([k v] & -> & Hin).
    rewrite forallb_elem_of in Hknown. specialize (Hknown _ Hin). simpl in Hknown.
    rewrite known_key_in_schema in Hknown. by apply count_keys.
  - intros strict pre post key sv -> Hfree Hne Hnm.
    assert (He' : find "$enum" (pre ++ (key, sv) :: post) = None).
    { by rewrite find_insert_other. }
    assert (Hm' : find "$map" (pre ++ (key, sv) :: post) = None).
    { by rewrite find_insert_other. }
    rewrite (matches_plain _ _ _ He Hm), (matches_plain _ _ _ He' Hm').
    unfold match_fields. f_equal.
    + destruct strict; [|done]. apply forallb_ext_elem_of. intros [k v] Hin. simpl.
      rewrite !lookup_named_fields, find_insert_other; [done|].
      intros ->. apply Hfree. by eapply elem_of_keys.
    + rewrite !fmap_app, fmap_cons, !forallb_app. simpl.
      apply find_None_keys in Hfree. by rewrite Hfree.
  - intros strict. rewrite (matches_plain _ _ _ He Hm). unfold match_fields.
    rewrite andb_true_iff. split; [by destruct strict|].
    apply forallb_elem_of. by intros [k f] _.
Qed.

Lemma closed_world_with_optional_fields_witness :
  find "$enum" basic_schema = None /\ find "$map" basic_schema = None /\
  (schemaMatch basic_schema [("apple", Int 4)] true = true ->
   forall key, key ∈ keys [("apple", Int 4)] -> key ∈ keys basic_schema) /\
  (forall strict pre post key sv,
     basic_schema = pre ++ post -> key ∉ keys [("apple", Int 4)] ->
     key <> "$enum" -> key <> "$map" ->
     schemaMatch (pre ++ (key, sv) :: post) [("apple", Int 4)] strict
     = schemaMatch basic_schema [("apple", Int 4)] strict) /\
  (forall strict, schemaMatch basic_schema [] strict = true).
Proof.
  split; [reflexivity|]. split; [reflexivity|].
  apply (closed_world_with_optional_fields basic_schema [("apple", Int 4)]);
    reflexivity.
Defined.

(** C3.  For a field whose schema entry [so] is a map directive (it has
    [$map], bound to [template], and no [$enum]): a value matches exactly
    when it is an object and every value in it, under whatever key,
    matches [template]; so an object fails exactly when one of its inner
    values fails against [template]. *)
Theorem map_directive_checks_values_only
    (strict : bool) (so : mObject) (template value : mValue) :
  find "$enum" so = None -> find "$map" so = Some template ->
  (matches strict (Obj so) value = true <->
   exists vo, value = Obj vo /\
     forall key v, (key, v) ∈ vo -> matches strict template v = true) /\
  (forall vo, value = Obj vo ->
     (matches strict (Obj so) value = false <->
      exists key v, (key, v) ∈ vo /\ matches strict template v = false)).
Proof.
  intros He Hm. rewrite (matches_map _ _ _ _ He Hm). split.
  - split.
    + intros H. destruct value as [vo| | | | | |]; try done.
      exists vo. split; [done|]. intros key v Hin.
      rewrite forallb_elem_of in H. apply (H _ Hin).
    + intros (vo & -> & H). apply forallb_elem_of. intros [key v] Hin. by eapply H.
  - intros vo ->. split.
    + intros H. induction vo as [|[key v] rest IH]; simpl in H; [done|].
      apply andb_false_iff in H as [H|H].
      * exists key, v. split; [apply list_elem_of_here | done].
      * destruct (IH H) as (k & x & Hin & Hx).
        exists k, x. split; [by apply list_elem_of_further | done].
    + intros (key & v & Hin & Hv).
      destruct (forallb _ vo) eqn:E; [|done].
      rewrite forallb_elem_of in E. specialize (E _ Hin). simpl in E. congruence.
Qed.

Lemma map_directive_checks_values_only_witness :
  find "$enum" [("$map", Obj [("x", Bool true)])] = None /\
  find "$map" [("$map", Obj [("x", Bool true)])] = Some (Obj [("x", Bool true)]) /\
  (matches true (Obj [("$map", Obj [("x", Bool true)])])
     (Obj [("item1", Obj [("x", Bool false)]); ("item2", Obj [("y", Int 1)])]) = true <->
   exists vo,
     Obj [("item1", Obj [("x", Bool false)]); ("item2", Obj [("y", Int 1)])] = Obj vo /\
     forall key v, (key, v) ∈ vo -> matches true (Obj [("x", Bool true)]) v = true) /\
  (forall vo,
     Obj [("item1", Obj [("x", Bool false)]); ("item2", Obj [("y", Int 1)])] = Obj vo ->
     (matches true (Obj [("$map", Obj [("x", Bool true)])])
        (Obj [("item1", Obj [("x", Bool false)]); ("item2", Obj [("y", Int 1)])]) = false <->
      exists key v, (key, v) ∈ vo /\ matches true (Obj [("x", Bool true)]) v = false)).
Proof.
  split; [reflexivity|]. split; [reflexivity|].
  apply (map_directive_checks_values_only true [("$map", Obj [("x", Bool true)])]
           (Obj [("x", Bool true)])
           (Obj [("item1", Obj [("x", Bool false)]); ("item2", Obj [("y", Int 1)])]));
    reflexivity.
Defined.

(** ** The workload *)

Section WorkloadFacts.

Variable serialized_length : StatusObject -> Z.
Variable write_string : mValue -> string.
Variable schemaMatch :
  StatusObject -> StatusObject -> Severity -> bool -> World -> (bool * string) * World.
Variable connFile : string.

Abbreviation run_fetcher := (fetcher serialized_length write_string schemaMatch connFile).
Abbreviation one_iteration := (fetcher_iteration serialized_length write_string schemaMatch).

Lemma fetcher_cons ev rest self w :
  run_fetcher (ev :: rest) self w =
  match one_iteration ev self w with
  | (Some exit, self', w') => (exit, self', w')
  | (None, self', w') => run_fetcher rest self' w'
  end.
Proof. reflexivity. Qed.

(** A reply touches neither the error counter nor the loop. *)
Lemma fetcher_reply_errors result latency self w :
  errors (fetcher_reply serialized_length write_string schemaMatch result latency self w).1
  = errors self.
Proof.
  unfold fetcher_reply. cbn [parsedSchema with_totalSize with_replies].
  destruct (parsedSchema self) as [schema|]; [|done].
  destruct (schemaMatch _ _ _ _ _) as [[ok errorStr] w1]. by destruct ok.
Qed.

Lemma reply_iteration result latency self w :
  one_iteration (FetchReply result latency) self w =
  (None,
   (fetcher_reply serialized_length write_string schemaMatch result latency
      (with_requests self (increment (requests self))) w).1,
   (fetcher_reply serialized_length write_string schemaMatch result latency
      (with_requests self (increment (requests self))) w).2).
Proof.
  unfold fetcher_iteration. by destruct (fetcher_reply _ _ _ _ _ _ _).
Qed.

Lemma reply_iteration_errors result latency self w :
  errors (one_iteration (FetchReply result latency) self w).1.2 = errors self.
Proof. rewrite reply_iteration. cbn [fst snd]. by rewrite fetcher_reply_errors. Qed.

(** The workload object after a reply does not depend on the matcher. *)
Lemma fetcher_reply_self result latency self w :
  (fetcher_reply serialized_length write_string schemaMatch result latency self w).1
  = with_totalSize (with_replies self (increment (replies self)))
      (add (totalSize self) (serialized_length result)).
Proof.
  unfold fetcher_reply. cbn [parsedSchema with_totalSize with_replies totalSize].
  destruct (parsedSchema self) as [schema|]; [|done].
  destruct (schemaMatch _ _ _ _ _) as [[ok errorStr] w1]. by destruct ok.
Qed.

(** While every fetch is answered the loop keeps going and counts no
    error. *)
Lemma fetcher_replies_only docs self w :
  (run_fetcher (reply_events docs) self w).1.1 = Suspended /\
  errors (run_fetcher (reply_events docs) self w).1.2 = errors self.
Proof.
  revert self w. induction docs as [|[result latency] rest IH]; intros self w; [done|].
  unfold reply_events. rewrite fmap_cons, fetcher_cons. cbn [fst snd].
  rewrite reply_iteration.
  destruct (IH (fetcher_reply serialized_length write_string schemaMatch result latency
                  (with_requests self (increment (requests self))) w).1
               (fetcher_reply serialized_length write_string schemaMatch result latency
                  (with_requests self (increment (requests self))) w).2) as [Hst Herr].
  split; [exact Hst|]. unfold reply_events in Herr. rewrite Herr.
  by rewrite fetcher_reply_errors.
Qed.

(** Events after the one that ends the loop are never served. *)
Lemma fetcher_app_replies docs evs self w :
  run_fetcher (reply_events docs ++ evs) self w =
  run_fetcher evs (run_fetcher (reply_events docs) self w).1.2
    (run_fetcher (reply_events docs) self w).2.
Proof.
  revert self w. induction docs as [|[result latency] rest IH]; intros self w; [done|].
  unfold reply_events. rewrite fmap_cons. cbn [app]. rewrite !fetcher_cons.
  rewrite reply_iteration. apply IH.
Qed.

End WorkloadFacts.

Lemma int64_add_in_range a b :
  INT64_MIN <= a + b <= INT64_MAX -> int64_add a b = a + b.
Proof.
  unfold int64_add, int64_wrap, INT64_MIN, INT64_MAX. intros H.
  rewrite Z.mod_small; lia.
Qed.

Section WorkloadClaims.

Variable serialized_length : StatusObject -> Z.
Variable write_string : mValue -> string.
Variable schemaMatch :
  StatusObject -> StatusObject -> Severity -> bool -> World -> (bool * string) * World.
Variable connFile : string.

Abbreviation run := (run_after_replies serialized_length write_string schemaMatch connFile).

Lemma run_split docs evs self w :
  run docs evs self w =
  fetcher serialized_length write_string schemaMatch connFile evs
    (run docs [] self w).1.2 (run docs [] self w).2.
Proof.
  unfold run_after_replies. rewrite app_nil_r. apply fetcher_app_replies.
Qed.

Lemma run_replies_errors docs self w : errors (run docs [] self w).1.2 = errors self.
Proof.
  unfold run_after_replies. rewrite app_nil_r. apply fetcher_replies_only.
Qed.

(** C1, as the code has it.  After any number of answered fetches, a
    fetch failure [e] ends the loop: the actor throws [e] again and the
    events that follow are not served.  The failed request was counted.
    When [e] is not the cancellation signal the failure is first logged
    at error severity and the error counter goes up by one; when it is,
    nothing is logged and the error counter is left alone.  A
    cancellation at either wait ends the loop the same way, uncounted. *)
Theorem fetch_failure_is_counted_then_rethrown
    (docs : list (StatusObject * Q)) (e : Error) (rest : list LoopEvent)
    (self : StatusWorkload) (w : World) :
  (run docs (FetchError e :: rest) self w).1.1 = Threw e /\
  run docs (FetchError e :: rest) self w = run docs [FetchError e] self w /\
  getValue (requests (run docs (FetchError e :: rest) self w).1.2)
    = int64_add (getValue (requests (run docs [] self w).1.2)) 1 /\
  (code e <> error_code_actor_cancelled ->
     getValue (errors (run docs (FetchError e :: rest) self w).1.2)
       = int64_add (getValue (errors self)) 1 /\
     traceLog (run docs (FetchError e :: rest) self w).2
       = traceLog (run docs [] self w).2 ++ [StatusWorkloadError e] /\
     severity (StatusWorkloadError e) = SevError) /\
  (code e = error_code_actor_cancelled ->
     errors (run docs (FetchError e :: rest) self w).1.2 = errors self /\
     traceLog (run docs (FetchError e :: rest) self w).2
       = traceLog (run docs [] self w).2) /\
  (run docs (CancelAtFetch :: rest) self w).1.1 = Cancelled /\
  errors (run docs (CancelAtFetch :: rest) self w).1.2 = errors self /\
  (run docs (CancelAtTick :: rest) self w).1.1 = Cancelled /\
  (run docs (CancelAtTick :: rest) self w).1.2 = (run docs [] self w).1.2.
Proof.
  rewrite !(run_split docs (_ :: _)). pose proof (run_replies_errors docs self w) as Herr.
  destruct (run docs [] self w) as [[st self1] w1]. cbn [fst snd] in *.
  cbn [fetcher fetcher_iteration]. unfold fetcher_catch.
  destruct (Z.eqb_spec (code e) error_code_actor_cancelled) as [Hc|Hc];
    cbn [negb fst snd with_errors with_requests errors requests getValue increment
         traceLog trace];
    rewrite ?Herr; repeat split; try done.
Qed.

(** C7.  When the matcher rejects a fetched document, the turn of the
    loop logs one [StatusWorkloadValidationFailed] event at error
    severity that carries the text of the whole document, and the loop
    goes on.  The workload object it leaves is the one any other verdict
    leaves: the request, the reply and its size are counted and the
    error counter is untouched.  So a run in which every fetch is
    answered, whatever the verdicts, is still running afterwards with
    its error counter and the outcome of [check] unchanged, and [check]
    still answers the same once the timer has cancelled the loop at
    either wait. *)
Theorem validation_mismatch_is_only_logged :
  (forall result latency self w schema errorStr w1,
     parsedSchema self = Some schema ->
     schemaMatch schema result SevError true
       (trace (StatusWorkloadReply (serialized_length result) latency) w)
     = ((false, errorStr), w1) ->
     exists self',
       fetcher_iteration serialized_length write_string schemaMatch
         (FetchReply result latency) self w
       = (None, self', trace (StatusWorkloadValidationFailed write_string result) w1) /\
       severity (StatusWorkloadValidationFailed write_string result) = SevError /\
       details (StatusWorkloadValidationFailed write_string result)
       = [("JSON", DString (write_string (Obj result)))] /\
       (forall schemaMatch',
          (fetcher_iteration serialized_length write_string schemaMatch'
             (FetchReply result latency) self w).1.2 = self') /\
       errors self' = errors self /\
       getValue (requests self') = int64_add (getValue (requests self)) 1 /\
       getValue (replies self') = int64_add (getValue (replies self)) 1 /\
       getValue (totalSize self')
       = int64_add (getValue (totalSize self)) (serialized_length result)) /\
  (forall docs self w,
     (run docs [] self w).1.1 = Suspended /\
     errors (run docs [] self w).1.2 = errors self /\
     check (run docs [] self w).1.2 = check self /\
     check (run docs [CancelAtTick] self w).1.2 = check self /\
     check (run docs [CancelAtFetch] self w).1.2 = check self).
Proof.
  split.
  - intros result latency self w schema errorStr w1 Hschema Hmatch.
    eexists. split; [|split; [done|split; [done|split]]].
    + rewrite reply_iteration. unfold fetcher_reply at 2.
      cbn [parsedSchema with_totalSize with_replies with_requests].
      rewrite Hschema, Hmatch. cbn [negb snd]. reflexivity.
    + intros schemaMatch'. rewrite reply_iteration. cbn [fst snd].
      by rewrite !fetcher_reply_self.
    + by rewrite fetcher_reply_self.
  - intros docs self w. rewrite !(run_split docs [_]).
    assert (Hrun : (run docs [] self w).1.1 = Suspended /\
                   errors (run docs [] self w).1.2 = errors self).
    { unfold run_after_replies. rewrite app_nil_r. apply fetcher_replies_only. }
    destruct Hrun as [Hst Herr].
    destruct (run docs [] self w) as [[st self1] w1]. cbn [fst snd] in *.
    unfold check. cbn. by rewrite Herr.
Qed.

End WorkloadClaims.

Lemma fetch_failure_is_counted_then_rethrown_witness :
  code example_error <> error_code_actor_cancelled /\
  getValue
    (errors (run_after_replies example_length example_text reject_all "fdb.cluster"
               [] [FetchError example_error; FetchReply [] 0%Q]
               fresh_workload emptyWorld).1.2) = 1.
Proof.
  split; [discriminate|].
  destruct (fetch_failure_is_counted_then_rethrown example_length example_text
              reject_all "fdb.cluster" [] example_error [FetchReply [] 0%Q]
              fresh_workload emptyWorld) as (_ & _ & _ & Hcount & _).
  destruct (Hcount ltac:(discriminate)) as [-> _]. reflexivity.
Defined.

(** Counterexample to C1 as the specification words it.  The failure
    [example_error] is not the cancellation signal, yet the loop does not
    go on to the next tick: the run is not the run of the remaining
    events from the counted and logged state, the actor has thrown the
    error, and the fetch the next tick would have brought is never
    issued (one request counted, not two, and no reply). *)
Lemma fetch_failure_ends_the_loop :
  code example_error <> error_code_actor_cancelled /\
  fetcher example_length example_text reject_all "fdb.cluster"
    [FetchError example_error; FetchReply [] 0%Q] fresh_workload emptyWorld
  <> fetcher example_length example_text reject_all "fdb.cluster"
       [FetchReply [] 0%Q]
       (with_errors (with_requests fresh_workload (increment (requests fresh_workload)))
          (increment (errors fresh_workload)))
       (trace (StatusWorkloadError example_error) emptyWorld) /\
  (fetcher example_length example_text reject_all "fdb.cluster"
     [FetchError example_error; FetchReply [] 0%Q] fresh_workload emptyWorld).1.1
  = Threw example_error /\
  getValue (requests
    (fetcher example_length example_text reject_all "fdb.cluster"
       [FetchError example_error; FetchReply [] 0%Q] fresh_workload emptyWorld).1.2) = 1 /\
  getValue (replies
    (fetcher example_length example_text reject_all "fdb.cluster"
       [FetchError example_error; FetchReply [] 0%Q] fresh_workload emptyWorld).1.2) = 0.
Proof.
  split; [discriminate|]. split; [|repeat split].
  intros H. apply (f_equal (fun r => r.1.1)) in H. discriminate H.
Qed.

Lemma validation_mismatch_is_only_logged_witness :
  parsedSchema checking_workload = Some basic_schema /\
  schemaMatch_call basic_schema [("extrathingy", Int 1)] SevError true
    (trace (StatusWorkloadReply (example_length [("extrathingy", Int 1)]) 0%Q) emptyWorld)
  = ((false, ""),
     trace (StatusWorkloadReply (example_length [("extrathingy", Int 1)]) 0%Q) emptyWorld) /\
  exists self',
    fetcher_iteration example_length example_text schemaMatch_call
      (FetchReply [("extrathingy", Int 1)] 0%Q) checking_workload emptyWorld
    = (None, self',
       trace (StatusWorkloadValidationFailed example_text [("extrathingy", Int 1)])
         (trace (StatusWorkloadReply (example_length [("extrathingy", Int 1)]) 0%Q)
            emptyWorld)) /\
    errors self' = errors checking_workload.
Proof.
  split; [reflexivity|]. split; [reflexivity|].
  destruct (validation_mismatch_is_only_logged example_length example_text
              schemaMatch_call "fdb.cluster") as [Hturn _].
  destruct (Hturn [("extrathingy", Int 1)] 0%Q checking_workload emptyWorld
              basic_schema "" _ eq_refl eq_refl)
    as (self' & Hiter & _ & _ & _ & Herr & _).
  exists self'. split; [exact Hiter | exact Herr].
Defined.

(** C8.  [check] answers true exactly when the error counter is zero,
    and replacing any of the three other counters by any value leaves
    its answer as it was. *)
Theorem check_reads_only_the_error_counter (self : StatusWorkload) :
  (check self = true <-> getValue (errors self) = 0) /\
  (forall c, check (with_requests self c) = check self) /\
  (forall c, check (with_replies self c) = check self) /\
  (forall c, check (with_totalSize self c) = check self).
Proof.
  unfold check. split; [apply Z.eqb_eq | done].
Qed.

(** C9.  On the designated participant [getMetrics] never divides by
    zero, and with a reply counter that is not negative it returns: it
    appends the four metrics, and the third, named "Average Reply Size",
    is 0 when no reply was counted and the truncated quotient of the
    size sum by the reply count otherwise. *)
Theorem average_reply_size_is_guarded (self : StatusWorkload) (m : list PerfMetric) :
  clientId self = 0 ->
  getMetrics self m <> inl DivideByZero /\
  (0 <= getValue (replies self) ->
   getMetrics self m =
   inr (m ++ [getMetric (requests self);
              getMetric (replies self);
              {| metricName := "Average Reply Size";
                 metricValue :=
                   if getValue (replies self) =? 0 then 0
                   else getValue (totalSize self) ÷ getValue (replies self);
                 averaged := false |};
              getMetric (errors self)])).
Proof.
  intros Hid. unfold getMetrics, int64_div. rewrite Hid. cbn [Z.eqb negb].
  destruct (Z.eqb_spec (getValue (replies self)) 0) as [Hz|Hnz]; cbn [negb].
  - split; [done|]. intros _. by rewrite <- !app_assoc.
  - split.
    + by destruct (_ && _).
    + intros Hpos.
      destruct (Z.eqb_spec (getValue (replies self)) (-1)) as [Hm|_]; [lia|].
      rewrite andb_false_r. by rewrite <- !app_assoc.
Qed.

Lemma average_reply_size_is_guarded_witness :
  clientId fresh_workload = 0 /\
  0 <= getValue (replies fresh_workload) /\
  getMetrics fresh_workload [] <> inl DivideByZero /\
  getMetrics fresh_workload [] =
  inr [getMetric (requests fresh_workload);
       getMetric (replies fresh_workload);
       {| metricName := "Average Reply Size"; metricValue := 0; averaged := false |};
       getMetric (errors fresh_workload)].
Proof.
  split; [reflexivity|]. split; [done|].
  destruct (average_reply_size_is_guarded fresh_workload [] eq_refl) as [Hsafe Hvalue].
  split; [exact Hsafe|]. apply Hvalue. done.
Defined.

(** C10.  On the designated participant, [start] with a database whose
    cluster reference is null returns a ready future at once: no event
    of the loop is served, the workload object is unchanged, and the only
    effect is one [StatusWorkloadStartError] event at error severity.  So
    [check] answers as before, and on a workload fresh from the
    constructor it answers true with no request counted. *)
Theorem start_with_null_cluster
    (check_type_what : Value_type -> Value_type -> string)
    (serialized_length : StatusObject -> Z) (write_string : mValue -> string)
    (schemaMatch : StatusObject -> StatusObject -> Severity -> bool -> World ->
                   (bool * string) * World)
    (evs : list LoopEvent) (self : StatusWorkload) (w : World) :
  clientId self = 0 ->
  start serialized_length write_string schemaMatch {| cluster := None |} evs self w
  = (Ready, self, trace StatusWorkloadStartError w) /\
  severity StatusWorkloadStartError = SevError /\
  check (start serialized_length write_string schemaMatch
           {| cluster := None |} evs self w).1.2 = check self /\
  (forall options w0,
     StatusWorkload_new check_type_what 0 options w0 = (inr self, w) ->
     check (start serialized_length write_string schemaMatch
              {| cluster := None |} evs self w).1.2 = true /\
     getValue (requests (start serialized_length write_string schemaMatch
                           {| cluster := None |} evs self w).1.2) = 0).
Proof.
  intros Hid. unfold start. rewrite Hid. cbn [Z.eqb negb cluster fst snd].
  split; [done|]. split; [done|]. split; [done|].
  intros options w0 Hnew.
  assert (Hzero : getValue (errors self) = 0 /\ getValue (requests self) = 0).
  { unfold StatusWorkload_new in Hnew.
    destruct (opt_schema options) as [schema|];
      [destruct (get_obj _ schema) as [e|o]; [done|];
       destruct (schemaCoverageRequirements _ o "" w0) as [[e|u] w']; [done|]|];
      by injection Hnew as <- _. }
  unfold check. by rewrite (proj1 Hzero), (proj2 Hzero).
Qed.

Lemma start_with_null_cluster_witness :
  clientId fresh_workload = 0 /\
  StatusWorkload_new json_spirit_what 0 no_options emptyWorld
  = (inr fresh_workload, emptyWorld) /\
  start example_length example_text reject_all {| cluster := None |}
    [FetchReply [] 0%Q] fresh_workload emptyWorld
  = (Ready, fresh_workload, trace StatusWorkloadStartError emptyWorld) /\
  check (start example_length example_text reject_all {| cluster := None |}
           [FetchReply [] 0%Q] fresh_workload emptyWorld).1.2 = true.
Proof.
  split; [reflexivity|]. split; [reflexivity|].
  destruct (start_with_null_cluster json_spirit_what example_length example_text
              reject_all [FetchReply [] 0%Q] fresh_workload emptyWorld eq_refl)
    as (Hstart & _ & _ & Hfresh).
  split; [exact Hstart|]. exact (proj1 (Hfresh no_options emptyWorld eq_refl)).
Defined.

(** The end-to-end property of the specification: no schema configured,
    every fetch answered with an empty document, then the timer fires at
    the tick wait.  [start] completes, nothing was counted as an error
    and [check] passes. *)
Example probe_run_without_schema :
  start example_length example_text reject_all
    {| cluster := Some {| getConnectionFile := "fdb.cluster" |} |}
    [FetchReply [] 0%Q; FetchReply [] 0%Q; CancelAtTick] fresh_workload emptyWorld
  = (Ready,
     with_totalSize
       (with_replies
          (with_requests fresh_workload
             {| counterName := "Status requests issued"; getValue := 2 |})
          {| counterName := "Status replies received"; getValue := 2 |})
       {| counterName := "Status reply size sum"; getValue := 0 |},
     trace (StatusWorkloadReply 0 0%Q) (trace (StatusWorkloadReply 0 0%Q) emptyWorld)) /\
  check (start example_length example_text reject_all
           {| cluster := Some {| getConnectionFile := "fdb.cluster" |} |}
           [FetchReply [] 0%Q; FetchReply [] 0%Q; CancelAtTick]
           fresh_workload emptyWorld).1.2 = true.
Proof. split; reflexivity. Qed.

(** * Further properties *)

(** ** The generator and the registry *)

Lemma string_app_assoc (a b c : string) : (a +:+ b) +:+ c = a +:+ (b +:+ c).
Proof.
  induction a as [|ch a IH]; [done|].
  change (String ch ((a +:+ b) +:+ c) = String ch (a +:+ (b +:+ c))). by rewrite IH.
Qed.

Lemma under_key base key : under base (base +:+ "." +:+ key).
Proof. by exists key. Qed.

Lemma under_below_key base key rest :
  under base ((base +:+ "." +:+ key) +:+ rest).
Proof. exists (key +:+ rest). by rewrite string_app_assoc. Qed.

Lemma under_nested base key x :
  under (base +:+ "." +:+ key) x -> under base x.
Proof. intros [s ->]. apply under_below_key. Qed.

Lemma under_template base key x :
  under ((base +:+ "." +:+ key) +:+ "[0]") x -> under base x.
Proof. intros [s ->]. rewrite string_app_assoc. apply under_below_key. Qed.

(** Equations between sets of paths, by membership. *)
Ltac paths_eq :=
  apply set_eq; intros ?;
  rewrite ?elem_of_union, ?elem_of_list_to_set, ?elem_of_app, ?elem_of_cons,
    ?elem_of_nil, ?elem_of_singleton, ?elem_of_union, ?elem_of_empty;
  tauto.

Lemma walk_effect_pure (res : Exception + unit) base :
  walk_effect (fun w => (res, w)) base.
Proof.
  exists res, []. split; [|constructor]. intros w. cbn.
  split; [done|]. split; [|done]. paths_eq.
Qed.

(** Registering [p] first and then running [f]. *)
Lemma walk_effect_after_register (f : Throwing unit) base p :
  under base p -> walk_effect f base ->
  walk_effect (fun w => f (schemaCoverage p false w)) base.
Proof.
  intros Hp (res & paths & Hf & Hunder).
  exists res, (paths ++ [p]). split.
  - intros w. destruct (Hf (schemaCoverage p false w)) as (Hres & Hreq & Hcov).
    split; [done|]. split; [|done].
    rewrite Hreq. cbn. paths_eq.
  - apply Forall_app. split; [done|]. by constructor.
Qed.

Lemma for_each_walk_effect {A} (body : A -> Throwing unit) base l :
  (forall x, x ∈ l -> walk_effect (body x) base) ->
  walk_effect (for_each body l) base.
Proof.
  induction l as [|x rest IH]; intros Hbody.
  - apply (walk_effect_pure (inr tt)).
  - destruct (Hbody x (list_elem_of_here _ _)) as (res1 & paths1 & H1 & Hu1).
    destruct (IH (fun y Hy => Hbody y (list_elem_of_further _ _ _ Hy)))
      as (res2 & paths2 & H2 & Hu2).
    destruct res1 as [e|u].
    + exists (inl e), paths1. split; [|done]. intros w. rewrite for_each_cons.
      destruct (H1 w) as (Hres & Hreq & Hcov).
      destruct (body x w) as [[e'|u'] w1]; cbn in *; [|done].
      by injection Hres as ->.
    + exists res2, (paths2 ++ paths1). split; [|by apply Forall_app].
      intros w. rewrite for_each_cons.
      destruct (H1 w) as (Hres & Hreq & Hcov).
      destruct (body x w) as [[e'|u'] w1]; cbn in *; [done|].
      destruct (H2 w1) as (Hres2 & Hreq2 & Hcov2).
      split; [done|]. rewrite Hreq2, Hcov2, Hreq, Hcov. split; [|done].
      paths_eq.
Qed.

Lemma coverage_handlers_walk_effect body base :
  walk_effect body base -> walk_effect (coverage_handlers body) base.
Proof.
  intros (res & paths & Hb & Hu).
  exists (match res with inl _ => inl (flow_error unknown_error) | inr u => inr u end), paths.
  split; [|done]. intros w. unfold coverage_handlers.
  destruct (Hb w) as (Hres & Hreq & Hcov).
  destruct (body w) as [[[txt|e]|u] w1]; cbn in *; by subst res.
Qed.

Section GeneratorEffect.

Variable what : Value_type -> Value_type -> string.

Lemma enum_item_walk_effect base key item :
  walk_effect (coverage_enum_item what (base +:+ "." +:+ key) item) base.
Proof.
  unfold coverage_enum_item. destruct item as [o|a|s|b|i|r|];
    try apply walk_effect_pure.
  cbn [get_str].
  apply (walk_effect_after_register (fun w => (inr tt, w)) base
           ((base +:+ "." +:+ key) +:+ ".$enum." +:+ s)).
  - apply under_below_key.
  - apply walk_effect_pure.
Qed.

Lemma walk_effect_weaken f base key :
  walk_effect f (base +:+ "." +:+ key) -> walk_effect f base.
Proof.
  intros (res & paths & Hf & Hu). exists res, paths. split; [done|].
  eapply Forall_impl; [exact Hu|]. intros x. apply under_nested.
Qed.

Lemma walk_effect_weaken_template f base key :
  walk_effect f ((base +:+ "." +:+ key) +:+ "[0]") -> walk_effect f base.
Proof.
  intros (res & paths & Hf & Hu). exists res, paths. split; [done|].
  eapply Forall_impl; [exact Hu|]. intros x. apply under_template.
Qed.

Lemma traversal_walk_effect (v : mValue) :
  (forall schema_path key,
     walk_effect
       (coverage_entry what (schemaCoverageRequirements_of what) schema_path (key, v))
       schema_path)
  /\
  (forall schema_path,
     walk_effect (schemaCoverageRequirements_of what v schema_path) schema_path).
Proof.
  induction v as [o IH|a IH|s|b|i|r|] using mValue_deep_ind;
    try (split; intros;
         [apply (walk_effect_after_register (fun w => (inr tt, w)));
            [apply under_key | apply walk_effect_pure]
         | apply walk_effect_pure]).
  - assert (Hobj : forall schema_path,
        walk_effect (schemaCoverageRequirements_of what (Obj o) schema_path) schema_path).
    { intros schema_path. cbn [schemaCoverageRequirements_of].
      apply coverage_handlers_walk_effect, for_each_walk_effect.
      intros [key sv] Hin. rewrite Forall_forall in IH. apply (IH _ Hin). }
    split; [|exact Hobj]. intros schema_path key.
    destruct (find "$enum" o) as [payload|] eqn:Henum.
    + assert (Heq : coverage_entry what (schemaCoverageRequirements_of what)
                      schema_path (key, Obj o)
                    = fun w =>
                        match get_array what payload with
                        | inl e => (inl e, schemaCoverage (schema_path +:+ "." +:+ key) false w)
                        | inr items =>
                            for_each (coverage_enum_item what (schema_path +:+ "." +:+ key))
                              items (schemaCoverage (schema_path +:+ "." +:+ key) false w)
                        end).
      { unfold coverage_entry. by rewrite Henum. }
      rewrite Heq. destruct (get_array what payload) as [e|items].
      * apply (walk_effect_after_register (fun w => (inl e, w)));
          [apply under_key | apply walk_effect_pure].
      * apply (walk_effect_after_register
                 (for_each (coverage_enum_item what (schema_path +:+ "." +:+ key)) items));
          [apply under_key|].
        apply for_each_walk_effect. intros item _. apply enum_item_walk_effect.
    + assert (Heq : coverage_entry what (schemaCoverageRequirements_of what)
                      schema_path (key, Obj o)
                    = fun w => schemaCoverageRequirements_of what (Obj o)
                                 (schema_path +:+ "." +:+ key)
                                 (schemaCoverage (schema_path +:+ "." +:+ key) false w)).
      { unfold coverage_entry. by rewrite Henum. }
      rewrite Heq.
      apply (walk_effect_after_register
               (schemaCoverageRequirements_of what (Obj o) (schema_path +:+ "." +:+ key)));
        [apply under_key|].
      apply (walk_effect_weaken _ schema_path key), Hobj.
  - split; [|intros; apply walk_effect_pure].
    intros schema_path key. destruct a as [|first rest].
    + apply (walk_effect_after_register (fun w => (inr tt, w)));
        [apply under_key | apply walk_effect_pure].
    + apply Forall_cons in IH as [[_ Hfirst] _].
      apply (walk_effect_after_register
               (schemaCoverageRequirements_of what first
                  ((schema_path +:+ "." +:+ key) +:+ "[0]")));
        [apply under_key|].
      apply (walk_effect_weaken_template _ schema_path key), Hfirst.
Qed.

Lemma generator_walk_effect schema schema_path :
  walk_effect (schemaCoverageRequirements what schema schema_path) schema_path.
Proof. apply (proj2 (traversal_walk_effect (Obj schema))). Qed.

End GeneratorEffect.

(** X1.  What a walk does to the registry is fixed by the schema and the
    base path alone: there are an outcome and a list of paths, all under
    the base path, such that from every state the walk ends with that
    outcome, the required set is the one before plus those paths, and
    the covered set is as before. *)
Theorem generator_effect_is_fixed_by_the_schema
    (what : Value_type -> Value_type -> string)
    (schema : StatusObject) (schema_path : string) :
  exists res paths,
    Forall (under schema_path) paths /\
    forall w,
      (schemaCoverageRequirements what schema schema_path w).1 = res /\
      requiredPaths (schemaCoverageRequirements what schema schema_path w).2
      = list_to_set paths ∪ requiredPaths w /\
      coveredPaths (schemaCoverageRequirements what schema schema_path w).2
      = coveredPaths w.
Proof.
  destruct (generator_walk_effect what schema schema_path) as (res & paths & Hf & Hu).
  by exists res, paths.
Qed.

(** X2.  Walking the same schema a second time changes nothing in the
    registry and ends the same way. *)
Theorem generator_is_idempotent_on_the_registry
    (what : Value_type -> Value_type -> string)
    (schema : StatusObject) (schema_path : string) (w : World) :
  requiredPaths
    (schemaCoverageRequirements what schema schema_path
       (schemaCoverageRequirements what schema schema_path w).2).2
  = requiredPaths (schemaCoverageRequirements what schema schema_path w).2 /\
  coveredPaths
    (schemaCoverageRequirements what schema schema_path
       (schemaCoverageRequirements what schema schema_path w).2).2
  = coveredPaths (schemaCoverageRequirements what schema schema_path w).2 /\
  (schemaCoverageRequirements what schema schema_path
     (schemaCoverageRequirements what schema schema_path w).2).1
  = (schemaCoverageRequirements what schema schema_path w).1.
Proof.
  destruct (generator_walk_effect what schema schema_path) as (res & paths & Hf & _).
  destruct (Hf w) as (Hres & Hreq & Hcov).
  destruct (Hf (schemaCoverageRequirements what schema schema_path w).2)
    as (Hres2 & Hreq2 & Hcov2).
  rewrite Hres2, Hreq2, Hcov2, Hres, Hreq. split; [paths_eq | done].
Qed.

Lemma for_each_includes_each {A} (body : A -> Throwing unit) base l x :
  (forall y, y ∈ l -> walk_effect (body y) base) ->
  x ∈ l ->
  forall w, (for_each body l w).1 = inr tt ->
  forall w' p,
    p ∈ requiredPaths (body x w').2 ->
    p ∈ requiredPaths w' \/ p ∈ requiredPaths (for_each body l w).2.
Proof.
  intros Hbody Hin. induction l as [|y rest IH]; [by apply elem_of_nil in Hin|].
  intros w Hok w' p Hp. rewrite for_each_cons in Hok |- *.
  destruct (for_each_walk_effect body base rest
              (fun z Hz => Hbody z (list_elem_of_further _ _ _ Hz)))
    as (resr & pathsr & Hrest & _).
  destruct (body y w) as [[e|u] w1] eqn:Ey; [done|].
  apply elem_of_cons in Hin as [->|Hin].
  - destruct (Hbody y (list_elem_of_here _ _)) as (res & paths & Hy & _).
    destruct (Hy w') as (_ & Hreq' & _). destruct (Hy w) as (_ & Hreq & _).
    rewrite Ey in Hreq. cbn in Hreq. destruct (Hrest w1) as (_ & Hreqr & _).
    rewrite Hreq' in Hp. rewrite Hreqr, Hreq.
    revert Hp. rewrite !elem_of_union. tauto.
  - apply (IH (fun z Hz => Hbody z (list_elem_of_further _ _ _ Hz)) Hin w1 Hok w' p Hp).
Qed.

Lemma entry_walk_effect what schema_path (skv : string * mValue) :
  walk_effect (coverage_entry what (schemaCoverageRequirements_of what) schema_path skv)
    schema_path.
Proof. destruct skv as [key sv]. apply traversal_walk_effect. Qed.

(** Every entry begins by requiring its own key path. *)
Lemma entry_requires_its_key what schema_path key sv w :
  (schema_path +:+ "." +:+ key)
    ∈ requiredPaths
        (coverage_entry what (schemaCoverageRequirements_of what) schema_path (key, sv) w).2.
Proof.
  assert (Hafter : forall g : Throwing unit,
            walk_effect g schema_path ->
            (schema_path +:+ "." +:+ key)
              ∈ requiredPaths (g (schemaCoverage (schema_path +:+ "." +:+ key) false w)).2).
  { intros g (res & paths & Hg & _).
    destruct (Hg (schemaCoverage (schema_path +:+ "." +:+ key) false w)) as (_ & -> & _).
    apply elem_of_union. right. apply schemaCoverage_required. by left. }
  destruct sv as [so|[|first rest]|s|b|i|r|];
    try apply (Hafter (fun w0 => (inr tt, w0)) (walk_effect_pure _ _)).
  - destruct (find "$enum" so) as [payload|] eqn:Henum.
    + rewrite (coverage_entry_enum _ _ _ _ _ _ _ Henum).
      destruct (get_array what payload) as [e|items].
      * apply (Hafter (fun w0 => (inl e, w0)) (walk_effect_pure _ _)).
      * apply (Hafter (for_each (coverage_enum_item what (schema_path +:+ "." +:+ key))
                         items)).
        apply for_each_walk_effect. intros item _. apply enum_item_walk_effect.
    + rewrite (coverage_entry_object _ _ _ _ _ _ Henum).
      apply (Hafter (schemaCoverageRequirements_of what (Obj so)
                       (schema_path +:+ "." +:+ key))).
      apply (walk_effect_weaken _ schema_path key), traversal_walk_effect.
  - apply (Hafter (schemaCoverageRequirements_of what first
                     ((schema_path +:+ "." +:+ key) +:+ "[0]"))).
    apply (walk_effect_weaken_template _ schema_path key), traversal_walk_effect.
Qed.

(** X3.  When the walk of a schema returns, it has done what the walk of
    each of its entries does: the path of every key is required, and so
    is every path that walking a nested object (an object entry without
    [$enum], under its key path; the first element of an array entry,
    under its key path followed by [[0]]) would add from any state. *)
Theorem generator_includes_its_entries
    (what : Value_type -> Value_type -> string)
    (schema : StatusObject) (schema_path : string) (w : World)
    (key : string) (sv : mValue) :
  (schemaCoverageRequirements what schema schema_path w).1 = inr tt ->
  (key, sv) ∈ schema ->
  (schema_path +:+ "." +:+ key)
    ∈ requiredPaths (schemaCoverageRequirements what schema schema_path w).2 /\
  (forall so w' p,
     sv = Obj so -> find "$enum" so = None ->
     p ∈ requiredPaths
           (schemaCoverageRequirements what so (schema_path +:+ "." +:+ key) w').2 ->
     p ∈ requiredPaths w' \/
     p ∈ requiredPaths (schemaCoverageRequirements what schema schema_path w).2) /\
  (forall o rest w' p,
     sv = Array (Obj o :: rest) ->
     p ∈ requiredPaths
           (schemaCoverageRequirements what o
              ((schema_path +:+ "." +:+ key) +:+ "[0]") w').2 ->
     p ∈ requiredPaths w' \/
     p ∈ requiredPaths (schemaCoverageRequirements what schema schema_path w).2).
Proof.
  intros Hok Hin. rewrite schemaCoverageRequirements_eq in Hok |- *.
  assert (Hloop : (for_each (coverage_entry what (schemaCoverageRequirements_of what)
                               schema_path) schema w).1 = inr tt).
  { unfold coverage_handlers in Hok.
    destruct (for_each _ schema w) as [[[txt|e]|[]] w1]; done. }
  rewrite (coverage_handlers_return _ _ Hloop).
  pose proof (for_each_includes_each
                (coverage_entry what (schemaCoverageRequirements_of what) schema_path)
                schema_path schema (key, sv)
                (fun y _ => entry_walk_effect what schema_path y)
                Hin w Hloop) as Hinc.
  assert (Hnested : forall (g : Throwing unit) w' p,
            walk_effect g schema_path ->
            (forall w0, coverage_entry what (schemaCoverageRequirements_of what)
                          schema_path (key, sv) w0
                        = g (schemaCoverage (schema_path +:+ "." +:+ key) false w0)) ->
            p ∈ requiredPaths (g w').2 ->
            p ∈ requiredPaths w' \/
            p ∈ requiredPaths
                  (for_each (coverage_entry what (schemaCoverageRequirements_of what)
                               schema_path) schema w).2).
  { intros g w' p (res & paths & Hg & _) Heq Hp.
    destruct (Hg w') as (_ & Hreq & _). rewrite Hreq in Hp.
    apply elem_of_union in Hp as [Hp|Hp]; [|by left].
    apply (Hinc w' p). rewrite Heq.
    destruct (Hg (schemaCoverage (schema_path +:+ "." +:+ key) false w'))
      as (_ & -> & _).
    apply elem_of_union. by left. }
  split; [|split].
  - destruct (Hinc emptyWorld (schema_path +:+ "." +:+ key)
                (entry_requires_its_key what schema_path key sv emptyWorld))
      as [Hp|Hp]; [by apply not_elem_of_empty in Hp | done].
  - intros so w' p -> Henum Hp.
    apply (Hnested (schemaCoverageRequirements_of what (Obj so)
                      (schema_path +:+ "." +:+ key)) w' p); [| |exact Hp].
    + apply (walk_effect_weaken _ schema_path key), traversal_walk_effect.
    + intros w0. by rewrite (coverage_entry_object _ _ _ _ _ _ Henum).
  - intros o rest w' p -> Hp.
    apply (Hnested (schemaCoverageRequirements_of what (Obj o)
                      ((schema_path +:+ "." +:+ key) +:+ "[0]")) w' p);
      [| done | exact Hp].
    apply (walk_effect_weaken_template _ schema_path key), traversal_walk_effect.
Qed.

Lemma generator_includes_its_entries_witness :
  (schemaCoverageRequirements json_spirit_what basic_schema "" emptyWorld).1 = inr tt /\
  ("sub", Obj [("thing", Bool true)]) ∈ basic_schema /\
  ("" +:+ "." +:+ "sub")
    ∈ requiredPaths (schemaCoverageRequirements json_spirit_what basic_schema ""
                       emptyWorld).2.
Proof.
  assert (Hin : ("sub", Obj [("thing", Bool true)]) ∈ basic_schema).
  { do 5 apply list_elem_of_further. apply list_elem_of_here. }
  split; [reflexivity|]. split; [exact Hin|].
  apply (generator_includes_its_entries json_spirit_what basic_schema "" emptyWorld
           "sub" (Obj [("thing", Bool true)]) eq_refl Hin).
Defined.

(** ** The log of a walk *)

Section LogShape.

Variable what : Value_type -> Value_type -> string.
Variables Qin Qout : Exception -> list TraceEvent -> Prop.

Hypothesis Hraise : forall actual expected, Qin (std_exception (what actual expected)) [].
Hypothesis Hcatch :
  forall body w, log_step Qin w (body w) -> log_step Qout w (coverage_handlers body w).
Hypothesis Hsub : forall e mid, Qout e mid -> Qin e mid.

Lemma log_step_raise (v : mValue) vtype w w' :
  traceLog w' = traceLog w -> log_step Qin w (inl (check_type what v vtype), w').
Proof.
  intros Hlog. exists []. cbn. rewrite app_nil_r. split; [done | apply Hraise].
Qed.

Lemma log_step_caught w res : log_step Qout w res -> log_step Qin w res.
Proof.
  intros (mid & Hlog & Hres). exists mid. split; [done|].
  destruct res.1; [by apply Hsub | done].
Qed.

Lemma traversal_log_step_for (v : mValue) :
  (forall schema_path key w,
     log_step Qin w
       (coverage_entry what (schemaCoverageRequirements_of what) schema_path (key, v) w))
  /\
  (forall schema_path w,
     log_step Qin w (schemaCoverageRequirements_of what v schema_path w)).
Proof.
  induction v as [o IH|a IH|s|b|i|r|] using mValue_deep_ind;
    try (split; intros; [by apply log_step_return | by apply log_step_raise]).
  - assert (Hobj : forall schema_path w,
        log_step Qin w (schemaCoverageRequirements_of what (Obj o) schema_path w)).
    { intros schema_path w. apply log_step_caught. cbn [schemaCoverageRequirements_of].
      apply Hcatch, for_each_log_step.
      intros [key sv] Hin w0. rewrite Forall_forall in IH. apply (IH _ Hin). }
    split; [|exact Hobj]. intros schema_path key w.
    destruct (find "$enum" o) as [payload|] eqn:Henum.
    + rewrite (coverage_entry_enum _ _ _ _ _ _ _ Henum).
      destruct payload as [po|items|ps|pb|pi|pr|]; try (by apply log_step_raise).
      cbn [get_array].
      assert (Hitems : forall w0, log_step Qin w0
                (for_each (coverage_enum_item what (schema_path +:+ "." +:+ key)) items w0)).
      { apply for_each_log_step. intros it _ w0. unfold coverage_enum_item.
        destruct it; try (by apply log_step_raise). by apply log_step_return. }
      apply (Hitems (schemaCoverage (schema_path +:+ "." +:+ key) false w)).
    + rewrite (coverage_entry_object _ _ _ _ _ _ Henum).
      apply (Hobj _ (schemaCoverage (schema_path +:+ "." +:+ key) false w)).
  - split; [|intros; by apply log_step_raise].
    intros schema_path key w. destruct a as [|first rest].
    + by apply log_step_return.
    + apply Forall_cons in IH as [[_ Hfirst] _].
      apply (Hfirst _ (schemaCoverage (schema_path +:+ "." +:+ key) false w)).
Qed.

Lemma generator_log_step_for schema schema_path w :
  log_step Qout w (schemaCoverageRequirements what schema schema_path w).
Proof.
  rewrite schemaCoverageRequirements_eq. apply Hcatch, for_each_log_step.
  intros [key sv] _ w0. apply traversal_log_step_for.
Qed.

End LogShape.

Lemma coverage_handlers_failure_log what body w :
  log_step (failing_inside what) w (body w) ->
  log_step (failing_outside what) w (coverage_handlers body w).
Proof.
  intros (mid & Hlog & Hres). unfold coverage_handlers.
  destruct (body w) as [[[txt|e]|u] w1]; cbn in *.
  - destruct Hres as [[(a & b & [= ->]) ->]|[[=] _]].
    exists [SchemaCoverageRequirementsException [("What", DString (what a b))]].
    cbn. rewrite Hlog, app_nil_r. split; [done|]. split; [done|]. by exists a, b, 0%nat.
  - destruct Hres as [[(a & b & [=]) _]|[[= ->] (a & b & k & ->)]].
    exists (SchemaCoverageRequirementsException [("What", DString (what a b))]
            :: replicate (S k) (SchemaCoverageRequirementsException [])).
    cbn. rewrite Hlog. split; [|split; [done | by exists a, b, (S k)]].
    rewrite <- app_assoc. f_equal. cbn [app]. f_equal.
    symmetry. apply replicate_cons_app.
  - by exists mid.
Qed.

(** X4.  A walk that returns leaves the trace log as it was (registering
    a path only inserts into the registry), and then the schema is not
    unreadable.  A walk that throws appends one
    [SchemaCoverageRequirementsException] event whose [What] detail is
    the text [txt] of the json_spirit exception raised by the failing
    read, followed by exactly [k] such events without details, where [k]
    is the number of calls that enclose the call in which the exception
    was raised, each of which caught the [unknown_error] on its way out.
    The schema fixes [txt] and [k] ([object_fault]). *)
Theorem generator_log_on_return_and_on_throw
    (what : Value_type -> Value_type -> string)
    (schema : StatusObject) (schema_path : string) (w : World) :
  match (schemaCoverageRequirements what schema schema_path w).1 with
  | inr _ =>
      ~ unreadable_object schema /\
      traceLog (schemaCoverageRequirements what schema schema_path w).2 = traceLog w
  | inl _ =>
      exists txt k,
        object_fault what schema txt k /\
        (forall txt' k', object_fault what schema txt' k' -> txt' = txt /\ k' = k) /\
        traceLog (schemaCoverageRequirements what schema schema_path w).2
        = traceLog w
          ++ SchemaCoverageRequirementsException [("What", DString txt)]
             :: replicate k (SchemaCoverageRequirementsException [])
  end.
Proof.
  destruct (generator_outcome what schema schema_path w)
    as [(Hok & Hret & Hlog)|(txt & k & Hf & Hres & Hlog)].
  - by rewrite Hret.
  - rewrite Hres. exists txt, k. split; [done|]. split; [|done].
    intros txt' k' Hf'. by destruct (object_fault_unique what schema _ _ _ _ Hf Hf').
Qed.

Lemma for_each_app {A} (body : A -> Throwing unit) l1 l2 w :
  for_each body (l1 ++ l2) w =
  match for_each body l1 w with
  | (inr _, w1) => for_each body l2 w1
  | (inl e, w1) => (inl e, w1)
  end.
Proof.
  revert w. induction l1 as [|x rest IH]; intros w; [done|].
  cbn [app]. rewrite !for_each_cons.
  destruct (body x w) as [[e|u] w1]; [done | apply IH].
Qed.

(** X5.  The walk stops at the first entry it cannot read: the entries
    that follow an unreadable entry are never visited, so the outcome,
    the registry and the log are those of the schema cut after that
    entry. *)
Theorem generator_stops_at_an_unreadable_entry
    (what : Value_type -> Value_type -> string)
    (pre post : StatusObject) (key : string) (sv : mValue)
    (schema_path : string) (w : World) :
  unreadable_entry sv ->
  schemaCoverageRequirements what (pre ++ (key, sv) :: post) schema_path w
  = schemaCoverageRequirements what (pre ++ [(key, sv)]) schema_path w.
Proof.
  intros Hbad. rewrite !schemaCoverageRequirements_eq. unfold coverage_handlers.
  rewrite !for_each_app.
  destruct (for_each _ pre w) as [[e|u] w1]; [done|].
  rewrite !for_each_cons.
  destruct (proj1 (entry_and_object_spec what sv)) as [[_ Ht]|[Hok _]]; [|done].
  destruct (Ht schema_path key w1) as [e He].
  by destruct (coverage_entry _ _ _ _ w1) as [[e'|u'] w2].
Qed.

Lemma generator_stops_at_an_unreadable_entry_witness :
  unreadable_entry (Array [Int 3]) /\
  schemaCoverageRequirements json_spirit_what
    ([("apple", Int 3)] ++ ("arr", Array [Int 3]) :: [("banana", Str "foo")]) ""
    emptyWorld
  = schemaCoverageRequirements json_spirit_what
      ([("apple", Int 3)] ++ [("arr", Array [Int 3])]) "" emptyWorld.
Proof.
  assert (Hbad : unreadable_entry (Array [Int 3])).
  { apply unreadable_template. discriminate. }
  split; [exact Hbad|].
  apply (generator_stops_at_an_unreadable_entry json_spirit_what
           [("apple", Int 3)] [("banana", Str "foo")] "arr" (Array [Int 3]) ""
           emptyWorld Hbad).
Defined.

(** ** The constructor *)

Lemma constructor_without_schema what id options w :
  opt_schema options = None ->
  exists self, StatusWorkload_new what id options w = (inr self, w).
Proof. intros H. unfold StatusWorkload_new. rewrite H. by eexists. Qed.

Lemma constructor_with_object what id options o w :
  opt_schema options = Some (Obj o) ->
  StatusWorkload_new what id options w =
  match schemaCoverageRequirements what o "" w with
  | (inl e, w') => (inl e, w')
  | (inr _, w') =>
      (inr {| clientId := id;
              testDuration := getOption (opt_testDuration options) (10 # 1)%Q;
              requestsPerSecond := getOption (opt_requestsPerSecond options) (1 # 2)%Q;
              requests := newCounter "Status requests issued";
              replies := newCounter "Status replies received";
              errors := newCounter "Status Errors";
              totalSize := newCounter "Status reply size sum";
              parsedSchema := Some o |}, w')
  end.
Proof. intros H. unfold StatusWorkload_new. by rewrite H. Qed.

(** X6.  The constructor throws exactly when a schema text is configured
    and its parse is not an object or is an unreadable object.  A
    non-object escapes as the bare json_spirit exception, with the state
    untouched and nothing logged; an unreadable object escapes as
    [unknown_error]. *)
Theorem constructor_throws_exactly_on_bad_schema
    (what : Value_type -> Value_type -> string)
    (id : Z) (options : Options) (w : World) :
  (throws (StatusWorkload_new what id options w) <->
   exists v, opt_schema options = Some v /\
     (type v <> obj_type \/ exists o, v = Obj o /\ unreadable_object o)) /\
  (forall v, opt_schema options = Some v -> type v <> obj_type ->
     StatusWorkload_new what id options w = (inl (check_type what v obj_type), w)) /\
  (forall o, opt_schema options = Some (Obj o) -> unreadable_object o ->
     (StatusWorkload_new what id options w).1 = inl (flow_error unknown_error)).
Proof.
  assert (Hbad : forall v, opt_schema options = Some v -> type v <> obj_type ->
            StatusWorkload_new what id options w = (inl (check_type what v obj_type), w)).
  { intros v Hv Hty. unfold StatusWorkload_new. rewrite Hv. by destruct v. }
  assert (Hobj : forall o, opt_schema options = Some (Obj o) ->
            (unreadable_object o /\
             (StatusWorkload_new what id options w).1 = inl (flow_error unknown_error))
            \/ (~ unreadable_object o /\ ~ throws (StatusWorkload_new what id options w))).
  { intros o Ho. rewrite (constructor_with_object _ _ _ _ _ Ho).
    destruct (proj2 (entry_and_object_spec what (Obj o)) o eq_refl)
      as [[Hun Ht]|[Hok Hr]].
    - left. split; [done|]. specialize (Ht "" w).
      destruct (schemaCoverageRequirements what o "" w) as [[e|u] w'];
        cbn in *; congruence.
    - right. split; [done|]. specialize (Hr "" w).
      destruct (schemaCoverageRequirements what o "" w) as [[e|u] w'];
        cbn in *; [congruence|].
      by intros [e He]. }
  split; [|split; [exact Hbad|]].
  - split.
    + intros Ht. destruct (opt_schema options) as [v|] eqn:Hv.
      * exists v. split; [done|].
        destruct (decide (type v = obj_type)) as [Hty|Hty]; [|by left].
        right. destruct v as [o| | | | | |]; try done.
        exists o. split; [done|]. by destruct (Hobj o eq_refl) as [[? _]|[_ ?]].
      * destruct (constructor_without_schema what id options w Hv) as [self Hs].
        destruct Ht as [e He]. by rewrite Hs in He.
    + intros (v & Hv & [Hty|(o & -> & Hun)]).
      * rewrite (Hbad v Hv Hty). by eexists.
      * destruct (Hobj o Hv) as [[_ He]|[Hok _]]; [by eexists | done].
  - intros o Ho Hun. by destruct (Hobj o Ho) as [[_ He]|[Hok _]].
Qed.

Lemma constructor_throws_exactly_on_bad_schema_witness :
  opt_schema {| opt_testDuration := None; opt_requestsPerSecond := None;
                opt_schema := Some (Array []) |} = Some (Array []) /\
  type (Array []) <> obj_type /\
  StatusWorkload_new json_spirit_what 0
    {| opt_testDuration := None; opt_requestsPerSecond := None;
       opt_schema := Some (Array []) |} emptyWorld
  = (inl (std_exception "value type is 1 not 0"), emptyWorld).
Proof.
  split; [reflexivity|]. split; [discriminate|].
  apply (proj1 (proj2 (constructor_throws_exactly_on_bad_schema json_spirit_what 0
           {| opt_testDuration := None; opt_requestsPerSecond := None;
              opt_schema := Some (Array []) |} emptyWorld)) (Array []));
    [reflexivity | discriminate].
Defined.

(** X7.  A workload the constructor returns belongs to the given client,
    has its four counters at zero, so that [check] holds, has the options
    it was given or the defaults 10 and 1/2, and holds the configured
    schema object, if any.  Constructing it only ever adds required
    paths: the covered set and the trace log are as before. *)
Theorem constructed_workload
    (what : Value_type -> Value_type -> string)
    (id : Z) (options : Options) (w w' : World) (self : StatusWorkload) :
  StatusWorkload_new what id options w = (inr self, w') ->
  clientId self = id /\
  getValue (requests self) = 0 /\ getValue (replies self) = 0 /\
  getValue (errors self) = 0 /\ getValue (totalSize self) = 0 /\
  check self = true /\
  testDuration self = getOption (opt_testDuration options) (10 # 1)%Q /\
  requestsPerSecond self = getOption (opt_requestsPerSecond options) (1 # 2)%Q /\
  parsedSchema self
  = match opt_schema options with Some (Obj o) => Some o | _ => None end /\
  requiredPaths w ⊆ requiredPaths w' /\
  coveredPaths w' = coveredPaths w /\
  traceLog w' = traceLog w.
Proof.
  intros Hnew. destruct (opt_schema options) as [v|] eqn:Hv.
  - destruct (decide (type v = obj_type)) as [Hty|Hty].
    + destruct v as [o| | | | | |]; try done.
      rewrite (constructor_with_object _ _ _ _ _ Hv) in Hnew.
      destruct (generator_walk_effect what o "") as (res & paths & Hf & _).
      destruct (Hf w) as (_ & Hreq & Hcov).
      pose proof (generator_log_step_for what (failing_inside what) (failing_outside what)
              (fun a b => or_introl (conj (ex_intro _ a (ex_intro _ b eq_refl)) eq_refl))
              (coverage_handlers_failure_log what)
              (fun e mid H => or_intror H) o "" w) as (mid & Hlog & Hres).
      destruct (schemaCoverageRequirements what o "" w) as [[e|u] w1]; [done|].
      injection Hnew as <- <-. cbn in *. subst mid. rewrite app_nil_r in Hlog.
      repeat split; try done. rewrite Hreq. apply union_subseteq_r.
    + unfold StatusWorkload_new in Hnew. rewrite Hv in Hnew. by destruct v.
  - unfold StatusWorkload_new in Hnew. rewrite Hv in Hnew.
    injection Hnew as <- <-. repeat split; done.
Qed.

Lemma constructed_workload_witness :
  StatusWorkload_new json_spirit_what 0 no_options emptyWorld
  = (inr fresh_workload, emptyWorld) /\
  clientId fresh_workload = 0 /\ check fresh_workload = true /\
  parsedSchema fresh_workload = None.
Proof.
  split; [reflexivity|].
  destruct (constructed_workload json_spirit_what 0 no_options emptyWorld emptyWorld
              fresh_workload eq_refl) as (Hid & _ & _ & _ & _ & Hcheck & _ & _ & Hschema & _).
  split; [exact Hid|]. split; [exact Hcheck | exact Hschema].
Defined.

(** ** 64-bit arithmetic *)

Lemma int64_wrap_range z : int64_range (int64_wrap z).
Proof.
  unfold int64_range, int64_wrap, INT64_MIN, INT64_MAX.
  pose proof (Z.mod_pos_bound (z + 2 ^ 63) (2 ^ 64) ltac:(lia)). lia.
Qed.

Lemma int64_wrap_small z : int64_range z -> int64_wrap z = z.
Proof.
  unfold int64_range, int64_wrap, INT64_MIN, INT64_MAX. intros H.
  rewrite Z.mod_small; lia.
Qed.

Lemma int64_add_wrap_l a b : int64_add (int64_wrap a) b = int64_wrap (a + b).
Proof.
  unfold int64_add, int64_wrap.
  replace ((a + 2 ^ 63) mod 2 ^ 64 - 2 ^ 63 + b + 2 ^ 63)
    with ((a + 2 ^ 63) mod 2 ^ 64 + b) by lia.
  rewrite Zplus_mod_idemp_l. f_equal. f_equal. lia.
Qed.

Lemma int64_wrap_add_l a b : int64_wrap (int64_wrap a + b) = int64_wrap (a + b).
Proof. apply int64_add_wrap_l. Qed.

(** ** Runs of the probe loop *)

Section LoopFacts.

Variable serialized_length : StatusObject -> Z.
Variable write_string : mValue -> string.
Variable schemaMatch :
  StatusObject -> StatusObject -> Severity -> bool -> World -> (bool * string) * World.
Variable connFile : string.

Abbreviation loop := (fetcher serialized_length write_string schemaMatch connFile).
Abbreviation turn := (fetcher_iteration serialized_length write_string schemaMatch).

Lemma same_configuration_refl self : same_configuration self self.
Proof. by repeat split. Qed.

Lemma same_configuration_trans a b c :
  same_configuration a b -> same_configuration b c -> same_configuration a c.
Proof.
  unfold same_configuration. intros (?&?&?&?&?&?&?&?) (?&?&?&?&?&?&?&?).
  repeat split; congruence.
Qed.

Lemma turn_configuration ev self w : same_configuration self (turn ev self w).1.2.
Proof.
  destruct ev as [| |e|result latency].
  - apply same_configuration_refl.
  - cbn [fetcher_iteration]. unfold fetcher_catch. cbn. by repeat split.
  - cbn [fetcher_iteration]. unfold fetcher_catch.
    destruct (negb (code e =? error_code_actor_cancelled)); cbn; by repeat split.
  - rewrite reply_iteration. cbn [fst snd]. rewrite fetcher_reply_self.
    by repeat split.
Qed.

Lemma loop_cons ev rest self w :
  loop (ev :: rest) self w =
  match turn ev self w with
  | (Some exit, self', w') => (exit, self', w')
  | (None, self', w') => loop rest self' w'
  end.
Proof. reflexivity. Qed.

Lemma turn_continues_iff ev self w :
  (turn ev self w).1.1 = None <-> is_reply ev.
Proof.
  destruct ev as [| |e|result latency]; cbn [is_reply].
  - done.
  - cbn [fetcher_iteration]. by destruct (fetcher_catch _ _ _).
  - cbn [fetcher_iteration]. by destruct (fetcher_catch _ _ _).
  - by rewrite reply_iteration.
Qed.

Lemma turn_never_suspends ev self w :
  (turn ev self w).1.1 <> Some Suspended.
Proof.
  destruct ev as [| |e|result latency].
  - done.
  - cbn [fetcher_iteration]. by destruct (fetcher_catch _ _ _).
  - cbn [fetcher_iteration]. by destruct (fetcher_catch _ _ _).
  - by rewrite reply_iteration.
Qed.

(** X8.  The loop writes nothing but the values of the four counters: the
    client, the duration and rate, the schema and the names of the
    counters are after any run what they were before. *)
Theorem fetcher_keeps_the_configuration
    (evs : list LoopEvent) (self : StatusWorkload) (w : World) :
  same_configuration self (loop evs self w).1.2.
Proof.
  revert self w. induction evs as [|ev rest IH]; intros self w.
  - apply same_configuration_refl.
  - rewrite loop_cons. pose proof (turn_configuration ev self w) as Hturn.
    destruct (turn ev self w) as [[[exit|] self1] w1]; cbn [fst snd] in *; [done|].
    eapply same_configuration_trans; [exact Hturn | apply IH].
Qed.

Lemma loop_errors evs self w :
  errors (loop evs self w).1.2 =
  match (loop evs self w).1.1 with
  | Threw e =>
      if code e =? error_code_actor_cancelled then errors self
      else increment (errors self)
  | _ => errors self
  end.
Proof.
  revert self w. induction evs as [|ev rest IH]; intros self w; [done|].
  rewrite loop_cons. destruct ev as [| |e|result latency].
  - done.
  - done.
  - cbn [fetcher_iteration]. unfold fetcher_catch.
    destruct (code e =? error_code_actor_cancelled) eqn:E; cbn; by rewrite E.
  - rewrite reply_iteration, IH. by rewrite fetcher_reply_errors.
Qed.

(** X11.  A run counts at most one error: the error counter afterwards is
    the one before, except when the actor threw an error other than the
    cancellation signal, and then it is that counter incremented once. *)
Theorem fetcher_counts_at_most_one_error
    (evs : list LoopEvent) (self : StatusWorkload) (w : World) :
  errors (loop evs self w).1.2 =
  match (loop evs self w).1.1 with
  | Threw e =>
      if code e =? error_code_actor_cancelled then errors self
      else increment (errors self)
  | _ => errors self
  end.
Proof. apply loop_errors. Qed.

Lemma turn_counters_in_range ev self w :
  counters_in_range self -> counters_in_range (turn ev self w).1.2.
Proof.
  intros (Hrq & Hrp & Her & Hts).
  assert (Hwrap : forall a b, int64_range (int64_add a b))
    by (intros; apply int64_wrap_range).
  destruct ev as [| |e|result latency].
  - done.
  - cbn [fetcher_iteration]. unfold fetcher_catch, counters_in_range.
    cbn [negb Z.eqb code actor_cancelled error_code_actor_cancelled Pos.eqb fst snd
         requests replies errors totalSize with_requests getValue increment].
    by split_and!.
  - cbn [fetcher_iteration]. unfold fetcher_catch, counters_in_range.
    destruct (negb (code e =? error_code_actor_cancelled));
      cbn [fst snd requests replies errors totalSize with_requests with_errors
           getValue increment];
      by split_and!.
  - rewrite reply_iteration. cbn [fst snd]. rewrite fetcher_reply_self.
    unfold counters_in_range.
    cbn [requests replies errors totalSize with_requests with_replies with_totalSize
         getValue increment add].
    by split_and!.
Qed.

Lemma loop_counters_in_range evs self w :
  counters_in_range self -> counters_in_range (loop evs self w).1.2.
Proof.
  revert self w. induction evs as [|ev rest IH]; intros self w Hin; [done|].
  rewrite loop_cons. pose proof (turn_counters_in_range ev self w Hin) as Hturn.
  destruct (turn ev self w) as [[[exit|] self1] w1]; cbn [fst snd] in *; [done|].
  by apply IH.
Qed.

Lemma loop_replies_counts docs self w :
  counters_in_range self ->
  getValue (requests (loop (reply_events docs) self w).1.2)
  = int64_wrap (getValue (requests self) + Z.of_nat (length docs)) /\
  getValue (replies (loop (reply_events docs) self w).1.2)
  = int64_wrap (getValue (replies self) + Z.of_nat (length docs)) /\
  getValue (totalSize (loop (reply_events docs) self w).1.2)
  = int64_wrap (getValue (totalSize self) + total_length serialized_length docs).
Proof.
  revert self w. induction docs as [|[result latency] rest IH]; intros self w Hin.
  - destruct Hin as (Hrq & Hrp & _ & Hts). cbn.
    rewrite !Z.add_0_r, !int64_wrap_small; done.
  - change (reply_events ((result, latency) :: rest))
      with (FetchReply result latency :: reply_events rest).
    rewrite loop_cons, reply_iteration.
    pose proof (turn_counters_in_range (FetchReply result latency) self w Hin) as Hin1.
    rewrite reply_iteration in Hin1. cbn [fst snd] in Hin1.
    destruct (IH _ (fetcher_reply serialized_length write_string schemaMatch result
                      latency (with_requests self (increment (requests self))) w).2 Hin1)
      as (Hrq & Hrp & Hts).
    rewrite Hrq, Hrp, Hts. rewrite fetcher_reply_self.
    cbn [requests replies totalSize with_totalSize with_replies with_requests getValue
         increment add length total_length foldr fst].
    unfold int64_add. rewrite !int64_wrap_add_l.
    split_and!; f_equal; unfold total_length; lia.
Qed.

(** X12.  With counters that start in range, after [docs] answered
    fetches the request and the reply counter have both advanced by the
    number of documents and the size counter by the sum of their
    serialized lengths, all modulo 2^64; a fetch that then fails or is
    cancelled has been counted as a request and not as a reply.  While
    the count fits in 64 bits it is exact. *)
Theorem fetcher_counts_requests_and_replies
    (docs : list (StatusObject * Q)) (self : StatusWorkload) (w : World) :
  counters_in_range self ->
  (getValue (requests (loop (reply_events docs) self w).1.2)
   = int64_wrap (getValue (requests self) + Z.of_nat (length docs)) /\
   getValue (replies (loop (reply_events docs) self w).1.2)
   = int64_wrap (getValue (replies self) + Z.of_nat (length docs)) /\
   getValue (totalSize (loop (reply_events docs) self w).1.2)
   = int64_wrap (getValue (totalSize self) + total_length serialized_length docs)) /\
  (forall e,
     getValue (requests (loop (reply_events docs ++ [FetchError e]) self w).1.2)
     = int64_wrap (getValue (requests self) + Z.of_nat (length docs) + 1) /\
     getValue (replies (loop (reply_events docs ++ [FetchError e]) self w).1.2)
     = int64_wrap (getValue (replies self) + Z.of_nat (length docs))) /\
  (getValue (requests (loop (reply_events docs ++ [CancelAtFetch]) self w).1.2)
   = int64_wrap (getValue (requests self) + Z.of_nat (length docs) + 1) /\
   getValue (replies (loop (reply_events docs ++ [CancelAtFetch]) self w).1.2)
   = int64_wrap (getValue (replies self) + Z.of_nat (length docs))) /\
  (int64_range (getValue (requests self) + Z.of_nat (length docs)) ->
   getValue (requests (loop (reply_events docs) self w).1.2)
   = getValue (requests self) + Z.of_nat (length docs)).
Proof.
  intros Hin. destruct (loop_replies_counts docs self w Hin) as (Hrq & Hrp & Hts).
  split; [done|]. split; [|split].
  - intros e. rewrite fetcher_app_replies.
    destruct (loop (reply_events docs) self w) as [[st self1] w1]. cbn [fst snd] in *.
    cbn [fetcher fetcher_iteration]. unfold fetcher_catch.
    destruct (negb (code e =? error_code_actor_cancelled));
      cbn [fst snd requests replies with_requests with_errors getValue increment];
      rewrite Hrq, Hrp; unfold int64_add; by rewrite int64_wrap_add_l.
  - rewrite fetcher_app_replies.
    destruct (loop (reply_events docs) self w) as [[st self1] w1]. cbn [fst snd] in *.
    cbn. rewrite Hrq, Hrp. unfold int64_add. by rewrite int64_wrap_add_l.
  - intros Hfit. rewrite Hrq. by apply int64_wrap_small.
Qed.

Lemma turn_without_schema schemaMatch' ev self w :
  parsedSchema self = None ->
  turn ev self w
  = fetcher_iteration serialized_length write_string schemaMatch' ev self w /\
  requiredPaths (turn ev self w).2 = requiredPaths w /\
  coveredPaths (turn ev self w).2 = coveredPaths w.
Proof.
  intros Hnone. destruct ev as [| |e|result latency]; cbn [fetcher_iteration].
  - done.
  - unfold fetcher_catch. by cbn.
  - unfold fetcher_catch. by destruct (negb (code e =? error_code_actor_cancelled)).
  - unfold fetcher_reply. cbn [parsedSchema with_totalSize with_replies with_requests].
    by rewrite Hnone.
Qed.

(** X13.  Without a configured schema the matcher is never consulted:
    the run is the same whatever matcher the loop is given, and it leaves
    both sets of the coverage registry as they were. *)
Theorem fetcher_without_schema_ignores_the_matcher
    (schemaMatch' : StatusObject -> StatusObject -> Severity -> bool -> World ->
                    (bool * string) * World)
    (evs : list LoopEvent) (self : StatusWorkload) (w : World) :
  parsedSchema self = None ->
  loop evs self w
  = fetcher serialized_length write_string schemaMatch' connFile evs self w /\
  requiredPaths (loop evs self w).2 = requiredPaths w /\
  coveredPaths (loop evs self w).2 = coveredPaths w.
Proof.
  revert self w. induction evs as [|ev rest IH]; intros self w Hnone; [done|].
  rewrite loop_cons. cbn [fetcher].
  destruct (turn_without_schema schemaMatch' ev self w Hnone) as (<- & Hreq & Hcov).
  pose proof (turn_configuration ev self w) as (_ & _ & _ & Hschema & _).
  destruct (turn ev self w) as [[[exit|] self1] w1]; cbn [fst snd] in *; [done|].
  rewrite <- Hreq, <- Hcov. apply IH. congruence.
Qed.

End LoopFacts.

Lemma fresh_counters_in_range : counters_in_range fresh_workload.
Proof.
  unfold counters_in_range, int64_range, INT64_MIN, INT64_MAX. cbn. lia.
Qed.

Lemma fetcher_counts_requests_and_replies_witness :
  counters_in_range fresh_workload /\
  getValue (requests
    (fetcher example_length example_text reject_all "fdb.cluster"
       (reply_events [([("a", Int 1)], 0%Q); ([], 0%Q)] ++ [CancelAtFetch])
       fresh_workload emptyWorld).1.2)
  = int64_wrap (getValue (requests fresh_workload) + Z.of_nat 2 + 1).
Proof.
  split; [exact fresh_counters_in_range|].
  apply (fetcher_counts_requests_and_replies example_length example_text reject_all
           "fdb.cluster" [([("a", Int 1)], 0%Q); ([], 0%Q)] fresh_workload emptyWorld
           fresh_counters_in_range).
Defined.

Lemma fetcher_without_schema_ignores_the_matcher_witness :
  parsedSchema fresh_workload = None /\
  fetcher example_length example_text reject_all "fdb.cluster"
    [FetchReply [("extrathingy", Int 1)] 0%Q; CancelAtTick] fresh_workload emptyWorld
  = fetcher example_length example_text schemaMatch_call "fdb.cluster"
      [FetchReply [("extrathingy", Int 1)] 0%Q; CancelAtTick] fresh_workload emptyWorld.
Proof.
  split; [reflexivity|].
  apply (fetcher_without_schema_ignores_the_matcher example_length example_text
           reject_all "fdb.cluster" schemaMatch_call). reflexivity.
Defined.

(** ** start, check and getMetrics *)

Section EntryPoints.

Variable serialized_length : StatusObject -> Z.
Variable write_string : mValue -> string.
Variable schemaMatch :
  StatusObject -> StatusObject -> Severity -> bool -> World -> (bool * string) * World.

Abbreviation begin := (start serialized_length write_string schemaMatch).


End EntryPoints.


(** X16.  With at least one reply and a non-negative size sum, the
    average [getMetrics] reports is the mean rounded down: it times the
    reply count is at most the size sum, which is less than the average
    plus one times the reply count; so it lies between 0 and the sum. *)
Theorem average_reply_size_is_the_mean_rounded_down
    (self : StatusWorkload) (m : list PerfMetric) :
  clientId self = 0 ->
  0 < getValue (replies self) ->
  0 <= getValue (totalSize self) ->
  exists average,
    getMetrics self m =
    inr (m ++ [getMetric (requests self);
               getMetric (replies self);
               {| metricName := "Average Reply Size";
                  metricValue := average;
                  averaged := false |};
               getMetric (errors self)]) /\
    average * getValue (replies self) <= getValue (totalSize self)
      < (average + 1) * getValue (replies self) /\
    0 <= average <= getValue (totalSize self).
Proof.
  intros Hid Hpos Hsum. exists (getValue (totalSize self) ÷ getValue (replies self)).
  split.
  - unfold getMetrics, int64_div. rewrite Hid. cbn [Z.eqb negb].
    destruct (Z.eqb_spec (getValue (replies self)) 0) as [|_]; [lia|]. cbn [negb].
    destruct (Z.eqb_spec (getValue (replies self)) (-1)) as [|_]; [lia|].
    rewrite andb_false_r. by rewrite <- !app_assoc.
  - rewrite Z.quot_div_nonneg by lia.
    pose proof (Z.div_mod (getValue (totalSize self)) (getValue (replies self))
                  ltac:(lia)) as Hdm.
    pose proof (Z.mod_pos_bound (getValue (totalSize self)) (getValue (replies self))
                  Hpos) as Hmod.
    pose proof (Z.div_pos (getValue (totalSize self)) (getValue (replies self))
                  Hsum Hpos) as Hq.
    split; nia.
Qed.

Lemma average_reply_size_is_the_mean_rounded_down_witness :
  clientId reporting_workload = 0 /\
  0 < getValue (replies reporting_workload) /\
  0 <= getValue (totalSize reporting_workload) /\
  exists average,
    getMetrics reporting_workload [] =
    inr [getMetric (requests reporting_workload);
         getMetric (replies reporting_workload);
         {| metricName := "Average Reply Size";
            metricValue := average;
            averaged := false |};
         getMetric (errors reporting_workload)] /\
    average * 3 <= 10 < (average + 1) * 3.
Proof.
  split; [reflexivity|]. split; [done|]. split; [done|].
  destruct (average_reply_size_is_the_mean_rounded_down reporting_workload []
              eq_refl ltac:(done) ltac:(done)) as (average & Hm & Hbounds & _).
  exists average. split; [exact Hm | exact Hbounds].
Defined.

(** ** The shape of a run *)

Section RunShape.

Variable serialized_length : StatusObject -> Z.
Variable write_string : mValue -> string.
Variable schemaMatch :
  StatusObject -> StatusObject -> Severity -> bool -> World -> (bool * string) * World.
Variable connFile : string.

Abbreviation actor := (fetcher serialized_length write_string schemaMatch connFile).

Lemma actor_reply result latency rest self w :
  actor (FetchReply result latency :: rest) self w =
  actor rest
    (fetcher_reply serialized_length write_string schemaMatch result latency
       (with_requests self (increment (requests self))) w).1
    (fetcher_reply serialized_length write_string schemaMatch result latency
       (with_requests self (increment (requests self))) w).2.
Proof. cbn [fetcher]. by rewrite reply_iteration. Qed.

(** X14.  Without a configured schema, a run of answered fetches appends
    to the trace log exactly one [StatusWorkloadReply] event per
    document, in order, with its serialized length and its latency. *)
Theorem fetcher_logs_one_reply_event_per_document
    (docs : list (StatusObject * Q)) (self : StatusWorkload) (w : World) :
  parsedSchema self = None ->
  traceLog (actor (reply_events docs) self w).2
  = traceLog w
    ++ ((fun d => StatusWorkloadReply (serialized_length d.1) d.2) <$> docs).
Proof.
  revert self w. induction docs as [|[result latency] rest IH]; intros self w Hnone.
  - cbn. by rewrite app_nil_r.
  - change (reply_events ((result, latency) :: rest))
      with (FetchReply result latency :: reply_events rest).
    rewrite actor_reply, IH.
    + unfold fetcher_reply. cbn [parsedSchema with_totalSize with_replies with_requests].
      rewrite Hnone. cbn. by rewrite <- app_assoc.
    + by rewrite fetcher_reply_self.
Qed.

End RunShape.

Lemma fetcher_logs_one_reply_event_per_document_witness :
  parsedSchema fresh_workload = None /\
  traceLog (fetcher example_length example_text reject_all "fdb.cluster"
              (reply_events [([("a", Int 1)], 0%Q); ([], 0%Q)])
              fresh_workload emptyWorld).2
  = [StatusWorkloadReply 1 0%Q; StatusWorkloadReply 0 0%Q].
Proof.
  split; [reflexivity|].
  apply (fetcher_logs_one_reply_event_per_document example_length example_text
           reject_all "fdb.cluster" [([("a", Int 1)], 0%Q); ([], 0%Q)]
           fresh_workload emptyWorld eq_refl).
Defined.

(** ** Runs of the loop when the matcher may throw *)

Section ThrowingFacts.

Variable serialized_length : StatusObject -> Z.
Variable write_string : mValue -> string.
Variable schemaMatch :
  StatusObject -> StatusObject -> Severity -> bool -> World ->
  (Error + bool * string) * World.
Variable connFile : string.

Abbreviation Tloop :=
  (Throwing.fetcher serialized_length write_string schemaMatch connFile).
Abbreviation Tturn :=
  (Throwing.fetcher_iteration serialized_length write_string schemaMatch).
Abbreviation Treply :=
  (Throwing.fetcher_reply serialized_length write_string schemaMatch).

Lemma Tloop_cons ev rest self w :
  Tloop (ev :: rest) self w =
  match Tturn ev self w with
  | (Some exit, self', w') => (exit, self', w')
  | (None, self', w') => Tloop rest self' w'
  end.
Proof. reflexivity. Qed.

(** What a turn on an answered fetch does, by the verdict of the
    matcher. *)
Lemma Tturn_reply result latency self w :
  (exists self' w',
     Tturn (FetchReply result latency) self w = (None, self', w') /\
     parsedSchema self' = parsedSchema self)
  \/
  (exists e schema w0 self' w',
     Tturn (FetchReply result latency) self w = (Some (Threw e), self', w') /\
     parsedSchema self = Some schema /\
     (schemaMatch schema result SevError true w0).1 = inl e).
Proof.
  cbn [Throwing.fetcher_iteration]. unfold Throwing.fetcher_reply.
  cbn [parsedSchema with_totalSize with_replies with_requests].
  destruct (parsedSchema self) as [schema|] eqn:Hschema.
  - destruct (schemaMatch schema result SevError true _) as [[e|[ok errorStr]] w1] eqn:Hm.
    + right. destruct (fetcher_catch e _ w1) as [self' w'] eqn:Hc.
      exists e, schema,
        (trace (StatusWorkloadReply (serialized_length result) latency) w), self', w'.
      split; [done|]. split; [done|]. by rewrite Hm.
    + left. destruct ok; cbn [negb]; by eexists _, _.
  - left. by eexists _, _.
Qed.

Lemma Tturn_never_suspends ev self w : (Tturn ev self w).1.1 <> Some Suspended.
Proof.
  destruct ev as [| |e|result latency].
  - done.
  - cbn [Throwing.fetcher_iteration]. by destruct (fetcher_catch _ _ _).
  - cbn [Throwing.fetcher_iteration]. by destruct (fetcher_catch _ _ _).
  - destruct (Tturn_reply result latency self w)
      as [(s1 & w1 & -> & _)|(e & sc & w0 & s1 & w1 & -> & _)]; done.
Qed.


Lemma Tloop_replies_outcome evs self w :
  Forall is_reply evs ->
  (Tloop evs self w).1.1 = Suspended \/
  exists e schema result latency w0,
    FetchReply result latency ∈ evs /\
    parsedSchema self = Some schema /\
    (schemaMatch schema result SevError true w0).1 = inl e /\
    (Tloop evs self w).1.1 = Threw e.
Proof.
  revert self w. induction evs as [|ev rest IH]; intros self w Hall; [by left|].
  apply Forall_cons in Hall as [Hev Hrest].
  destruct ev as [| |e0|result latency]; try done.
  rewrite Tloop_cons.
  destruct (Tturn_reply result latency self w)
    as [(s1 & w1 & -> & Hs)|(e & schema & w0 & s1 & w1 & -> & Hs & Hm)].
  - destruct (IH s1 w1 Hrest) as [Hst|(e & schema & r & l & w0 & Hin & Hsc & Hm & Hst)];
      [by left|].
    right. exists e, schema, r, l, w0.
    split; [by apply list_elem_of_further|]. split; [congruence | done].
  - right. exists e, schema, result, latency, w0.
    split; [apply list_elem_of_here | done].
Qed.



Lemma Tloop_app_suspended l1 l2 self w :
  (Tloop l1 self w).1.1 = Suspended ->
  Tloop (l1 ++ l2) self w = Tloop l2 (Tloop l1 self w).1.2 (Tloop l1 self w).2.
Proof.
  revert self w. induction l1 as [|ev rest IH]; intros self w Hst; [done|].
  cbn [app]. rewrite !Tloop_cons in *.
  pose proof (Tturn_never_suspends ev self w) as Hns.
  destruct (Tturn ev self w) as [[[exit|] s1] w1]; cbn [fst snd] in *;
    [congruence | by apply IH].
Qed.

Lemma Tloop_exit_cause evs self w :
  (forall e,
     (Tloop evs self w).1.1 = Threw e ->
     (exists docs rest, evs = reply_events docs ++ FetchError e :: rest) \/
     (exists docs result latency rest schema w0,
        evs = reply_events docs ++ FetchReply result latency :: rest /\
        parsedSchema self = Some schema /\
        (schemaMatch schema result SevError true w0).1 = inl e)) /\
  ((Tloop evs self w).1.1 = Cancelled ->
   exists docs rest c,
     evs = reply_events docs ++ c :: rest /\ (c = CancelAtTick \/ c = CancelAtFetch)).
Proof.
  revert self w. induction evs as [|ev rest IH]; intros self w; [done|].
  rewrite Tloop_cons. destruct ev as [| |e0|result latency].
  - split; [done|]. intros _. exists [], rest, CancelAtTick. split; [done | by left].
  - cbn [Throwing.fetcher_iteration]. destruct (fetcher_catch _ _ _) as [s1 w1].
    split; [done|]. intros _. exists [], rest, CancelAtFetch. split; [done | by right].
  - cbn [Throwing.fetcher_iteration]. destruct (fetcher_catch _ _ _) as [s1 w1].
    split; [|done]. intros e [= <-]. left. by exists [], rest.
  - destruct (Tturn_reply result latency self w)
      as [(s1 & w1 & -> & Hs)|(e1 & schema & w0 & s1 & w1 & -> & Hs & Hm)].
    + destruct (IH s1 w1) as [Hthrew Hcancelled]. split.
      * intros e He.
        destruct (Hthrew e He)
          as [(docs & rest' & ->)
             |(docs & r & l & rest' & schema & w0 & -> & Hsc & Hm)].
        -- left. by exists ((result, latency) :: docs), rest'.
        -- right. exists ((result, latency) :: docs), r, l, rest', schema, w0.
           split; [done|]. split; [congruence | done].
      * intros Hc. destruct (Hcancelled Hc) as (docs & rest' & c & -> & Hcc).
        by exists ((result, latency) :: docs), rest', c.
    + split; [|done]. intros e [= <-]. right.
      exists [], result, latency, rest, schema, w0. done.
Qed.

(** X10.  With a matcher that may throw, how a run ends is read off its
    events.  An actor that threw [e] was given answered fetches followed
    either by a fetch failing with [e] or, with a schema configured, by
    an answered fetch on whose document the matcher threw [e]; a
    cancelled actor was given answered fetches followed by a cancellation
    at one of the two waits.  Conversely, if the actor is still
    suspended after the answered fetches [docs], then a fetch failing
    with [e] next makes it throw [e] and a cancellation next cancels
    it.  So with no schema, or with a matcher that never throws, the
    actor throws [e] exactly on answered fetches followed by a fetch
    failing with [e], and is cancelled exactly on answered fetches
    followed by a cancellation. *)
Theorem fetcher_exit_and_its_cause
    (evs : list LoopEvent) (self : StatusWorkload) (w : World) :
  (forall e,
     (Tloop evs self w).1.1 = Threw e ->
     (exists docs rest, evs = reply_events docs ++ FetchError e :: rest) \/
     (exists docs result latency rest schema w0,
        evs = reply_events docs ++ FetchReply result latency :: rest /\
        parsedSchema self = Some schema /\
        (schemaMatch schema result SevError true w0).1 = inl e)) /\
  ((Tloop evs self w).1.1 = Cancelled ->
   exists docs rest c,
     evs = reply_events docs ++ c :: rest /\ (c = CancelAtTick \/ c = CancelAtFetch)) /\
  (forall docs rest,
     (Tloop (reply_events docs) self w).1.1 = Suspended ->
     (forall e, (Tloop (reply_events docs ++ FetchError e :: rest) self w).1.1 = Threw e) /\
     (Tloop (reply_events docs ++ CancelAtTick :: rest) self w).1.1 = Cancelled /\
     (Tloop (reply_events docs ++ CancelAtFetch :: rest) self w).1.1 = Cancelled) /\
  (parsedSchema self = None \/ never_throws schemaMatch ->
   (forall e,
      (Tloop evs self w).1.1 = Threw e <->
      exists docs rest, evs = reply_events docs ++ FetchError e :: rest) /\
   ((Tloop evs self w).1.1 = Cancelled <->
    exists docs rest c,
      evs = reply_events docs ++ c :: rest /\ (c = CancelAtTick \/ c = CancelAtFetch))).
Proof.
  destruct (Tloop_exit_cause evs self w) as [Hthrew Hcancelled].
  assert (Hnext : forall self w docs rest,
            (Tloop (reply_events docs) self w).1.1 = Suspended ->
            (forall e,
               (Tloop (reply_events docs ++ FetchError e :: rest) self w).1.1 = Threw e) /\
            (Tloop (reply_events docs ++ CancelAtTick :: rest) self w).1.1 = Cancelled /\
            (Tloop (reply_events docs ++ CancelAtFetch :: rest) self w).1.1 = Cancelled).
  { intros self0 w0 docs rest Hst.
    split; [intros e|split];
      rewrite (Tloop_app_suspended _ _ _ _ Hst), Tloop_cons;
      cbn [Throwing.fetcher_iteration]; try done; by destruct (fetcher_catch _ _ _). }
  assert (Hquiet : parsedSchema self = None \/ never_throws schemaMatch ->
            forall docs, (Tloop (reply_events docs) self w).1.1 = Suspended).
  { intros Hq docs.
    destruct (Tloop_replies_outcome (reply_events docs) self w)
      as [Hst|(e & schema & r & l & w0 & _ & Hsc & Hm & _)]; [|done|].
    - unfold reply_events. apply Forall_fmap, Forall_forall. by intros [??] _.
    - destruct Hq as [Hnone|Hnever]; [congruence|].
      destruct (Hnever schema r SevError true w0) as [v Hv]. congruence. }
  split; [exact Hthrew|]. split; [exact Hcancelled|]. split; [apply Hnext|].
  intros Hq. split.
  - intros e. split.
    + intros He. destruct (Hthrew e He)
        as [Hfetch|(docs & r & l & rest & schema & w0 & _ & Hsc & Hm)]; [done|].
      destruct Hq as [Hnone|Hnever]; [congruence|].
      destruct (Hnever schema r SevError true w0) as [v Hv]. congruence.
    + intros (docs & rest & ->). by apply Hnext, Hquiet.
  - split; [exact Hcancelled|].
    intros (docs & rest & c & -> & [->| ->]); by apply Hnext, Hquiet.
Qed.

End ThrowingFacts.

(** The loop with a matcher that may throw is the loop of the workload
    whenever the matcher always returns. *)
Lemma returning_never_throws schemaMatch : never_throws (returning schemaMatch).
Proof. intros schema result sev strict w. by eexists. Qed.

Lemma fetcher_of_returning_matcher serialized_length write_string schemaMatch
    connFile evs self w :
  Throwing.fetcher serialized_length write_string (returning schemaMatch) connFile
    evs self w
  = fetcher serialized_length write_string schemaMatch connFile evs self w.
Proof.
  revert self w. induction evs as [|ev rest IH]; intros self w; [done|].
  cbn [Throwing.fetcher fetcher].
  assert (Hturn : Throwing.fetcher_iteration serialized_length write_string
                    (returning schemaMatch) ev self w
                  = fetcher_iteration serialized_length write_string schemaMatch
                      ev self w).
  { destruct ev as [| |e|result latency]; try done.
    cbn [Throwing.fetcher_iteration fetcher_iteration].
    unfold Throwing.fetcher_reply, fetcher_reply, returning.
    cbn [parsedSchema with_totalSize with_replies with_requests].
    destruct (parsedSchema self) as [schema|]; [|done].
    destruct (schemaMatch schema result SevError true _) as [[ok errorStr] w1].
    by destruct ok. }
  rewrite Hturn.
  destruct (fetcher_iteration _ _ _ ev self w) as [[[exit|] s1] w1]; [done | apply IH].
Qed.


Lemma fetcher_exit_and_its_cause_witness :
  (Throwing.fetcher example_length example_text throw_unknown_error "fdb.cluster"
     (reply_events [([], 0%Q)]) fresh_workload emptyWorld).1.1 = Suspended /\
  (Throwing.fetcher example_length example_text throw_unknown_error "fdb.cluster"
     (reply_events [([], 0%Q)] ++ FetchError example_error :: [CancelAtTick])
     fresh_workload emptyWorld).1.1 = Threw example_error.
Proof.
  split; [reflexivity|].
  apply (proj1 (proj2 (proj2 (fetcher_exit_and_its_cause example_length example_text
           throw_unknown_error "fdb.cluster" [] fresh_workload emptyWorld)))
           [([], 0%Q)] [CancelAtTick] eq_refl).
Defined.

(** With a schema configured, a matcher that throws ends the loop after
    an answered fetch: the reply was counted, the error is logged and
    counted, and the actor has thrown it. *)
Example matcher_throw_ends_the_loop :
  Throwing.fetcher example_length example_text throw_unknown_error "fdb.cluster"
    [FetchReply [("apple", Int 4)] 0%Q; FetchReply [] 0%Q] checking_workload emptyWorld
  = (Threw unknown_error,
     with_errors
       (with_totalSize
          (with_replies
             (with_requests checking_workload
                {| counterName := "Status requests issued"; getValue := 1 |})
             {| counterName := "Status replies received"; getValue := 1 |})
          {| counterName := "Status reply size sum"; getValue := 1 |})
       {| counterName := "Status Errors"; getValue := 1 |},
     trace (StatusWorkloadError unknown_error)
       (trace (StatusWorkloadReply 1 0%Q) emptyWorld)).
Proof. reflexivity. Qed.
